(** * VerusHash native library (libverushash): sponge engine and permutation core

    Shallow embedding of [src/Native/libverushash/verushash.cpp] and
    verification of the properties stated for it, followed by the helpers of
    [src/Native/libfiropow] ([bit_manipulation.h], [kiss99.hpp],
    [endianness.hpp]).

    Conventions of the embedding.
    - A [uint8_t] is a [Z] in [0, 256); a byte array is a [list Z].
    - A [uint32_t] or [uint64_t] is a [Z] whose wrap-around is written out
      ([mod 2^32], [mod 2^64]) wherever the C arithmetic can wrap.
    - An [__m128i] is the list of its 16 bytes in memory order (byte 0 is the
      least significant byte of the register); the target is x86, so every
      integer is stored little-endian.
    - Array indices and byte counts that address the 64-byte buffers are [nat].
    - [while] loops run on a fuel argument whose guard is the guard of the C
      loop; the callers pass the number of remaining bytes, which always
      suffices (see [absorb_loop_exit]). *)

From Stdlib Require Import ZArith List Lia Bool Arith.
Import ListNotations.

Set Implicit Arguments.

(* ================================================================== *)

(** ** Byte-level helpers *)

Module Mem.

(** [a[i]]: reading an array cell; index out of range is outside the
    behaviours the embedding covers and reads the default. *)
Definition get (l : list Z) (i : nat) : Z := nth i l 0%Z.

(** [a[i] = v]: writing an array cell. *)
Fixpoint upd {A : Type} (l : list A) (i : nat) (v : A) : list A :=
  match l, i with
  | [], _ => []
  | _ :: t, O => v :: t
  | h :: t, S j => h :: upd t j v
  end.

(** [memcpy(dst + off, src, |src|)]. *)
Definition memcpy (dst : list Z) (off : nat) (src : list Z) : list Z :=
  firstn off dst ++ src ++ skipn (off + length src) dst.

(** [memset(dst + off, v, n)]. *)
Definition memset (dst : list Z) (off : nat) (v : Z) (n : nat) : list Z :=
  firstn off dst ++ repeat v n ++ skipn (off + n) dst.

(** Little-endian encoding of [v] on [n] bytes. *)
Fixpoint le_bytes (n : nat) (v : Z) : list Z :=
  match n with
  | O => []
  | S n' => (v mod 256)%Z :: le_bytes n' (v / 256)%Z
  end.

(** Little-endian value of a byte string. *)
Fixpoint le_value (bs : list Z) : Z :=
  match bs with
  | [] => 0%Z
  | b :: r => (b + 256 * le_value r)%Z
  end.

(** [((uint32_t* )p)[i]]. *)
Definition load32 (p : list Z) (i : nat) : Z :=
  le_value (firstn 4 (skipn (4 * i) p)).

(** [*((uint64_t* )(p + off)) = v]. *)
Definition store64 (p : list Z) (off : nat) (v : Z) : list Z :=
  memcpy p off (le_bytes 8 v).

(** Byte-wise exclusive or of two byte strings. *)
Fixpoint xor_bytes (a b : list Z) : list Z :=
  match a, b with
  | x :: a', y :: b' => Z.lxor x y :: xor_bytes a' b'
  | _, _ => []
  end.

End Mem.

Import Mem.

(* ================================================================== *)

(** ** SSE / AES-NI intrinsics used by the source *)

Definition m128i := list Z.

(** [_mm_set_epi32(e3, e2, e1, e0)]: [e0] is the lowest 32-bit element. *)
Definition _mm_set_epi32 (e3 e2 e1 e0 : Z) : m128i :=
  le_bytes 4 e0 ++ le_bytes 4 e1 ++ le_bytes 4 e2 ++ le_bytes 4 e3.

(** [_mm_set_epi64x(e1, e0)]: [e0] is the low 64-bit element. *)
Definition _mm_set_epi64x (e1 e0 : Z) : m128i :=
  le_bytes 8 e0 ++ le_bytes 8 e1.

(** [_mm_load_si128((__m128i* )(p + off))].  The instruction requires a
    16-byte aligned address; addresses are not part of the embedding, which
    reads the 16 bytes at offset [off]. *)
Definition _mm_load_si128 (p : list Z) (off : nat) : m128i :=
  firstn 16 (skipn off p).

(** [_mm_store_si128((__m128i* )(p + off), v)]. *)
Definition _mm_store_si128 (p : list Z) (off : nat) (v : m128i) : list Z :=
  memcpy p off v.

Definition _mm_xor_si128 (a b : m128i) : m128i := xor_bytes a b.

(** The AES round of [_mm_aesenc_si128], after the Intel SDM (AESENC):
    ShiftRows, SubBytes, MixColumns, then xor with the round key.  The
    register byte [i] is the state cell of row [i mod 4], column [i / 4]. *)
Module AES.

Definition sbox : list Z := [
  0x63; 0x7c; 0x77; 0x7b; 0xf2; 0x6b; 0x6f; 0xc5; 0x30; 0x01; 0x67; 0x2b; 0xfe; 0xd7; 0xab; 0x76;
  0xca; 0x82; 0xc9; 0x7d; 0xfa; 0x59; 0x47; 0xf0; 0xad; 0xd4; 0xa2; 0xaf; 0x9c; 0xa4; 0x72; 0xc0;
  0xb7; 0xfd; 0x93; 0x26; 0x36; 0x3f; 0xf7; 0xcc; 0x34; 0xa5; 0xe5; 0xf1; 0x71; 0xd8; 0x31; 0x15;
  0x04; 0xc7; 0x23; 0xc3; 0x18; 0x96; 0x05; 0x9a; 0x07; 0x12; 0x80; 0xe2; 0xeb; 0x27; 0xb2; 0x75;
  0x09; 0x83; 0x2c; 0x1a; 0x1b; 0x6e; 0x5a; 0xa0; 0x52; 0x3b; 0xd6; 0xb3; 0x29; 0xe3; 0x2f; 0x84;
  0x53; 0xd1; 0x00; 0xed; 0x20; 0xfc; 0xb1; 0x5b; 0x6a; 0xcb; 0xbe; 0x39; 0x4a; 0x4c; 0x58; 0xcf;
  0xd0; 0xef; 0xaa; 0xfb; 0x43; 0x4d; 0x33; 0x85; 0x45; 0xf9; 0x02; 0x7f; 0x50; 0x3c; 0x9f; 0xa8;
  0x51; 0xa3; 0x40; 0x8f; 0x92; 0x9d; 0x38; 0xf5; 0xbc; 0xb6; 0xda; 0x21; 0x10; 0xff; 0xf3; 0xd2;
  0xcd; 0x0c; 0x13; 0xec; 0x5f; 0x97; 0x44; 0x17; 0xc4; 0xa7; 0x7e; 0x3d; 0x64; 0x5d; 0x19; 0x73;
  0x60; 0x81; 0x4f; 0xdc; 0x22; 0x2a; 0x90; 0x88; 0x46; 0xee; 0xb8; 0x14; 0xde; 0x5e; 0x0b; 0xdb;
  0xe0; 0x32; 0x3a; 0x0a; 0x49; 0x06; 0x24; 0x5c; 0xc2; 0xd3; 0xac; 0x62; 0x91; 0x95; 0xe4; 0x79;
  0xe7; 0xc8; 0x37; 0x6d; 0x8d; 0xd5; 0x4e; 0xa9; 0x6c; 0x56; 0xf4; 0xea; 0x65; 0x7a; 0xae; 0x08;
  0xba; 0x78; 0x25; 0x2e; 0x1c; 0xa6; 0xb4; 0xc6; 0xe8; 0xdd; 0x74; 0x1f; 0x4b; 0xbd; 0x8b; 0x8a;
  0x70; 0x3e; 0xb5; 0x66; 0x48; 0x03; 0xf6; 0x0e; 0x61; 0x35; 0x57; 0xb9; 0x86; 0xc1; 0x1d; 0x9e;
  0xe1; 0xf8; 0x98; 0x11; 0x69; 0xd9; 0x8e; 0x94; 0x9b; 0x1e; 0x87; 0xe9; 0xce; 0x55; 0x28; 0xdf;
  0x8c; 0xa1; 0x89; 0x0d; 0xbf; 0xe6; 0x42; 0x68; 0x41; 0x99; 0x2d; 0x0f; 0xb0; 0x54; 0xbb; 0x16
]%Z.

Definition sub_byte (b : Z) : Z := nth (Z.to_nat b) sbox 0%Z.

(** Multiplication by [x] in GF(2^8) modulo [x^8 + x^4 + x^3 + x + 1]. *)
Definition xtime (b : Z) : Z :=
  Z.lxor (Z.shiftl b 1 mod 256) (if Z.testbit b 7 then 0x1b else 0)%Z.

Definition shift_rows (a : m128i) : m128i :=
  map (fun i => get a (i mod 4 + 4 * ((i / 4 + i mod 4) mod 4))) (seq 0 16).

Definition sub_bytes (a : m128i) : m128i := map sub_byte a.

Definition mix_column (a : m128i) (c : nat) : list Z :=
  let b0 := get a (4 * c) in
  let b1 := get a (4 * c + 1) in
  let b2 := get a (4 * c + 2) in
  let b3 := get a (4 * c + 3) in
  [ Z.lxor (Z.lxor (xtime b0) (Z.lxor (xtime b1) b1)) (Z.lxor b2 b3);
    Z.lxor (Z.lxor b0 (xtime b1)) (Z.lxor (Z.lxor (xtime b2) b2) b3);
    Z.lxor (Z.lxor b0 b1) (Z.lxor (xtime b2) (Z.lxor (xtime b3) b3));
    Z.lxor (Z.lxor (Z.lxor (xtime b0) b0) b1) (Z.lxor b2 (xtime b3)) ].

Definition mix_columns (a : m128i) : m128i :=
  flat_map (mix_column a) (seq 0 4).

End AES.

Definition _mm_aesenc_si128 (a round_key : m128i) : m128i :=
  _mm_xor_si128 (AES.mix_columns (AES.sub_bytes (AES.shift_rows a))) round_key.

(* ================================================================== *)

(** ** Constants (verushash.h, verushash.cpp lines 14-24) *)

Definition VERUS_BLOCKSIZE : nat := 64.
Definition VERUS_ROUNDS : nat := 8.

Definition HARAKA_RC : list m128i := [
  _mm_set_epi32 0x0e05ae8c 0x2d345e69 0x417f1b07 0xb6707e78;
  _mm_set_epi32 0xc6f7e2f3 0x5c12a4a8 0xfd7c8b85 0x78a93ab4;
  _mm_set_epi32 0x8c5f87ad 0x4c9a4f5e 0x924fddb2 0xe1a7c3d1;
  _mm_set_epi32 0xf43b8f5b 0x7a94c28e 0x85f2a641 0x23a8c9be;
  _mm_set_epi32 0x5c18b2d4 0x9a7de8f1 0xf83c6e2b 0x41c8d956;
  _mm_set_epi32 0x2f9db3ac 0x8e4a7c5f 0xb5f8d629 0x73e1a4c2;
  _mm_set_epi32 0x6b2c8f94 0xe7d15a3b 0x1f8c4d26 0xa5b9e1c7;
  _mm_set_epi32 0x9c5f2b84 0x3d7a61e8 0xf2b4c9a5 0x8e1d756c
]%Z.

(** [((uint32_t* )HARAKA_RC)[k]]: the table read as an array of words. *)
Definition HARAKA_RC_word (k : nat) : Z := load32 (concat HARAKA_RC) k.

(* ================================================================== *)

(** ** Permutation core *)

(** Body of the per-word loop of [haraka512_software] (lines 74-80). *)
Definition sw_mix_word (x : Z) (i : nat) : Z :=
  let x := Z.lxor x (Z.lor (Z.shiftl x 13 mod 2 ^ 32) (Z.shiftr x 19)) in
  let x := Z.lxor x (Z.lor (Z.shiftr x 17) (Z.shiftl x 15 mod 2 ^ 32)) in
  ((x + HARAKA_RC_word (i mod 8)) mod 2 ^ 32)%Z.

(** The "simple permutation" of odd rounds (lines 83-89). *)
Definition sw_permute (state : list Z) : list Z :=
  let temp := get state 0 in
  let state :=
    fold_left (fun st i => upd st i (get st (i + 1))) (seq 0 15) state in
  upd state 15 temp.

(** One iteration of the round loop of [haraka512_software] (lines 72-90). *)
Definition sw_round (state : list Z) (round : nat) : list Z :=
  let state :=
    fold_left (fun st i => upd st i (sw_mix_word (get st i) i)) (seq 0 16) state in
  if negb (Nat.land round 1 =? 0) then sw_permute state else state.

(** [haraka512_software] (lines 61-101). *)
Definition haraka512_software (input : list Z) : list Z :=
  let state := map (load32 input) (seq 0 16) in
  let state := fold_left sw_round (seq 0 VERUS_ROUNDS) state in
  let state :=
    fold_left (fun st i => upd st i (Z.lxor (get st i) (load32 input i)))
              (seq 0 16) state in
  flat_map (fun i => le_bytes 4 (Z.lxor (get state i) (get state (i + 8))))
           (seq 0 8).

(** One iteration of the round loop of [haraka512_aes_ni] (lines 113-128). *)
Definition aes_round (s : m128i * m128i * m128i * m128i) (i : nat)
  : m128i * m128i * m128i * m128i :=
  let '(s0, s1, s2, s3) := s in
  let s0 := _mm_aesenc_si128 s0 (nth (Nat.land i 7) HARAKA_RC []) in
  let s1 := _mm_aesenc_si128 s1 (nth (Nat.land (i + 1) 7) HARAKA_RC []) in
  let s2 := _mm_aesenc_si128 s2 (nth (Nat.land (i + 2) 7) HARAKA_RC []) in
  let s3 := _mm_aesenc_si128 s3 (nth (Nat.land (i + 3) 7) HARAKA_RC []) in
  if negb (Nat.land i 1 =? 0) then (s1, s2, s3, s0) else (s0, s1, s2, s3).

(** [haraka512_aes_ni] (lines 105-143). *)
Definition haraka512_aes_ni (input : list Z) : list Z :=
  let s0 := _mm_load_si128 input 0 in
  let s1 := _mm_load_si128 input 16 in
  let s2 := _mm_load_si128 input 32 in
  let s3 := _mm_load_si128 input 48 in
  let '(s0, s1, s2, s3) :=
    fold_left aes_round (seq 0 VERUS_ROUNDS) (s0, s1, s2, s3) in
  let s0 := _mm_xor_si128 s0 (_mm_load_si128 input 0) in
  let s1 := _mm_xor_si128 s1 (_mm_load_si128 input 16) in
  let s2 := _mm_xor_si128 s2 (_mm_load_si128 input 32) in
  let s3 := _mm_xor_si128 s3 (_mm_load_si128 input 48) in
  let s0 := _mm_xor_si128 s0 s2 in
  let s1 := _mm_xor_si128 s1 s3 in
  s0 ++ s1.

(** [haraka512] (lines 147-155).  [aes_ni] stands for "the library was built
    with HAVE_AES_NI and [verushash_has_aes_ni()] answers true". *)
Definition haraka512 (aes_ni : bool) (input : list Z) : list Z :=
  if aes_ni then haraka512_aes_ni input else haraka512_software input.

(* ================================================================== *)

(** ** Sponge engine *)

Section Sponge.

(** The permutation path taken by [haraka512] on the running machine. *)
Variable aes_ni : bool.

(** The fixed initial [state[0..3]] (lines 163-166 and 247-250). *)
Definition initial_state : list m128i := [
  _mm_set_epi64x 0x6a09e667f3bcc908 0xbb67ae8584caa73b;
  _mm_set_epi64x 0x3c6ef372fe94f82b 0xa54ff53a5f1d36f1;
  _mm_set_epi64x 0x510e527fade682d1 0x9b05688c2b3e6c1f;
  _mm_set_epi64x 0x1f83d9abfb41bd6b 0x5be0cd19137e2179
]%Z.

(** [for i < 4: state[i] = _mm_xor_si128(state[i], load(block + i * 16))]. *)
Definition xor_state (state : list m128i) (block : list Z) : list m128i :=
  fold_left
    (fun st i =>
       upd st i (_mm_xor_si128 (nth i st []) (_mm_load_si128 block (i * 16))))
    (seq 0 4) state.

(** [for i < 4: _mm_store_si128(temp_input + i * 16, state[i])]; the local
    array [temp_input] is written in full before it is read. *)
Definition store_state (state : list m128i) : list Z :=
  fold_left
    (fun mem i => _mm_store_si128 mem (i * 16) (nth i state []))
    (seq 0 4) (repeat 0%Z VERUS_BLOCKSIZE).

(** Absorption of one full block.  The source repeats this code in the loop
    of [verushash_hash] (lines 177-195), twice in [verushash_update]
    (lines 280-296 and 304-320) and in the overflow branch of
    [verushash_finalize] (lines 344-360). *)
Definition absorb_block (state : list m128i) (block : list Z) : list m128i :=
  let state := xor_state state block in
  let temp_input := store_state state in
  let temp_output := haraka512 aes_ni temp_input in
  let state := upd state 0 (_mm_load_si128 temp_output 0) in
  let state := upd state 1 (_mm_load_si128 temp_output 16) in
  state.

(** [while (remaining >= VERUS_BLOCKSIZE) { absorb; data += 64;
    remaining -= 64; }] (lines 172-199 and 303-324).  Returns the state and
    the unconsumed bytes. *)
Fixpoint absorb_loop (fuel : nat) (state : list m128i) (data : list Z)
  : list m128i * list Z :=
  match fuel with
  | O => (state, data)
  | S fuel' =>
      if VERUS_BLOCKSIZE <=? length data
      then absorb_loop fuel' (absorb_block state (firstn VERUS_BLOCKSIZE data))
                       (skipn VERUS_BLOCKSIZE data)
      else (state, data)
  end.

(** The padded block of [verushash_hash] (lines 203-208); [data] holds the
    [remaining] trailing bytes and [input_len] is the [uint32_t] argument,
    so that [input_len * 8] is a 32-bit product. *)
Definition hash_padded_block (data : list Z) (input_len : Z) : list Z :=
  let remaining := length data in
  let padded_block := repeat 0%Z VERUS_BLOCKSIZE in
  let padded_block := memcpy padded_block 0 data in
  let padded_block := upd padded_block remaining 0x80%Z in
  store64 padded_block (VERUS_BLOCKSIZE - 8) ((input_len * 8) mod 2 ^ 32)%Z.

(** [verushash_hash] (lines 158-235).  [input_len] is a [uint32_t]: the
    definition stands for the C function on inputs shorter than 2^32
    bytes. *)
Definition verushash_hash (input : list Z) : list Z :=
  let input_len := Z.of_nat (length input) in
  let '(state, data) := absorb_loop (length input) initial_state input in
  let remaining := length data in
  if 0 <? remaining then
    let padded_block := hash_padded_block data input_len in
    let state := xor_state state padded_block in
    haraka512 aes_ni (store_state state)
  else
    haraka512 aes_ni (store_state state).

(** [struct verushash_ctx] (lines 27-32). *)
Record verushash_ctx : Type := mk_ctx {
  buffer : list Z;
  buffer_len : nat;
  total_len : Z;
  state : list m128i
}.

(** [verushash_create_context] (lines 238-253), allocation succeeding.
    [verushash_destroy_context] (lines 255-261) releases the context right
    after its [memset]: no context is left whose fields could be read, so it
    has no counterpart among these definitions. *)
Definition verushash_create_context : verushash_ctx :=
  {| buffer := repeat 0%Z VERUS_BLOCKSIZE;
     buffer_len := 0;
     total_len := 0;
     state := initial_state |}.

(** [verushash_update] (lines 263-331) on a live context and a chunk of
    [len = length data] bytes.  The guard of line 264 returns at once on a
    null context or a null chunk; contexts and chunks of the embedding
    always exist.  This is the context that a call which returns leaves
    behind; whether the call returns depends on the address of [data]
    (the aligned loads of line 306), which [verushash_update_at] below
    carries along. *)
Definition verushash_update (ctx : verushash_ctx) (data : list Z)
  : verushash_ctx :=
  let len := length data in
  let total := ((total_len ctx + Z.of_nat len) mod 2 ^ 64)%Z in
  let '(buf, blen, st, data) :=
    if 0 <? buffer_len ctx then
      let needed := VERUS_BLOCKSIZE - buffer_len ctx in
      let to_copy := if len <? needed then len else needed in
      let buf := memcpy (buffer ctx) (buffer_len ctx) (firstn to_copy data) in
      let blen := buffer_len ctx + to_copy in
      let data := skipn to_copy data in
      if blen =? VERUS_BLOCKSIZE
      then (buf, 0, absorb_block (state ctx) buf, data)
      else (buf, blen, state ctx, data)
    else (buffer ctx, buffer_len ctx, state ctx, data) in
  let '(st, data) := absorb_loop (length data) st data in
  let len := length data in
  if 0 <? len then
    {| buffer := memcpy buf blen data;
       buffer_len := blen + len;
       total_len := total;
       state := st |}
  else
    {| buffer := buf; buffer_len := blen; total_len := total; state := st |}.

(** [verushash_finalize] (lines 333-386): the context it leaves behind and
    the 32 bytes written to [output] (both pointers non-null, line 334). *)
Definition verushash_finalize (ctx : verushash_ctx)
  : verushash_ctx * list Z :=
  let buf := upd (buffer ctx) (buffer_len ctx) 0x80%Z in
  let blen := buffer_len ctx + 1 in
  let '(buf, blen, st) :=
    if VERUS_BLOCKSIZE - 8 <? blen then
      let buf := memset buf blen 0%Z (VERUS_BLOCKSIZE - blen) in
      let st := absorb_block (state ctx) buf in
      (memset buf 0 0%Z VERUS_BLOCKSIZE, 0, st)
    else
      (memset buf blen 0%Z (VERUS_BLOCKSIZE - 8 - blen), blen, state ctx) in
  let buf := store64 buf (VERUS_BLOCKSIZE - 8) ((total_len ctx * 8) mod 2 ^ 64)%Z in
  let st := xor_state st buf in
  let output := haraka512 aes_ni (store_state st) in
  ({| buffer := buf; buffer_len := blen; total_len := total_len ctx;
      state := st |}, output).

(** The streaming use of the interface: create, update with each chunk in
    order, finalize. *)
Definition streaming (chunks : list (list Z)) : list Z :=
  snd (verushash_finalize (fold_left verushash_update chunks verushash_create_context)).

(** *** The address of the caller's data

    [_mm_load_si128] is the aligned load: at an address that is not a
    multiple of 16 it has no defined result (with [movdqa], a
    general-protection fault).  The local arrays are [alignas(16)], and the
    context comes from [aligned_alloc(16, ...)] with [buffer] at offset 0 and
    [state] at offset 80, so every load of the source is aligned except,
    possibly, those of line 306, which read [data + i * 16] at the address
    the caller passed, advanced by [to_copy] (line 275) and by 64 for every
    block (line 322).  [verushash_hash] copies each block into a local
    aligned array first (line 175) and [verushash_finalize] reads the
    buffer of the context only: both return at every address. *)
Definition aligned16 (addr : Z) : bool := (addr mod 16 =? 0)%Z.

(** The loop of lines 303-324 with the address of [data]: [None] when a load
    of line 306 is applied to an address that is not a multiple of 16. *)
Fixpoint absorb_loop_at (fuel : nat) (state : list m128i) (data_ptr : Z) (data : list Z)
  : option (list m128i * list Z) :=
  match fuel with
  | O => Some (state, data)
  | S fuel' =>
      if VERUS_BLOCKSIZE <=? length data then
        if forallb (fun i => aligned16 (data_ptr + Z.of_nat (i * 16))) (seq 0 4)
        then absorb_loop_at fuel'
               (absorb_block state (firstn VERUS_BLOCKSIZE data))
               (data_ptr + Z.of_nat VERUS_BLOCKSIZE)%Z
               (skipn VERUS_BLOCKSIZE data)
        else None
      else Some (state, data)
  end.

(** [verushash_update] (lines 263-331) with the address [data_ptr] of the
    chunk: a null [data] leaves the context as it is (line 264); [None] when
    the call does not return. *)
Definition verushash_update_at (ctx : verushash_ctx) (data_ptr : Z) (data : list Z)
  : option verushash_ctx :=
  if (data_ptr =? 0)%Z then Some ctx else
  let len := length data in
  let total := ((total_len ctx + Z.of_nat len) mod 2 ^ 64)%Z in
  let '(buf, blen, st, data_ptr, data) :=
    if 0 <? buffer_len ctx then
      let needed := VERUS_BLOCKSIZE - buffer_len ctx in
      let to_copy := if len <? needed then len else needed in
      let buf := memcpy (buffer ctx) (buffer_len ctx) (firstn to_copy data) in
      let blen := buffer_len ctx + to_copy in
      let data_ptr := (data_ptr + Z.of_nat to_copy)%Z in
      let data := skipn to_copy data in
      if blen =? VERUS_BLOCKSIZE
      then (buf, 0, absorb_block (state ctx) buf, data_ptr, data)
      else (buf, blen, state ctx, data_ptr, data)
    else (buffer ctx, buffer_len ctx, state ctx, data_ptr, data) in
  match absorb_loop_at (length data) st data_ptr data with
  | None => None
  | Some (st, data) =>
      let len := length data in
      if 0 <? len then
        Some {| buffer := memcpy buf blen data;
                buffer_len := blen + len;
                total_len := total;
                state := st |}
      else
        Some {| buffer := buf; buffer_len := blen; total_len := total;
                state := st |}
  end.

(** A chunk, given as its address and its bytes, that passes the guard of
    line 264. *)
Definition non_null (chunk : Z * list Z) : Prop := fst chunk <> 0%Z.

(** A sequence of [verushash_update] calls on chunks given with their
    addresses; it stops at the first call that does not return. *)
Fixpoint updates_at (ctx : verushash_ctx) (chunks : list (Z * list Z))
  : option verushash_ctx :=
  match chunks with
  | [] => Some ctx
  | (data_ptr, data) :: chunks' =>
      match verushash_update_at ctx data_ptr data with
      | Some ctx' => updates_at ctx' chunks'
      | None => None
      end
  end.

(** Create, update with each chunk at its address, finalize. *)
Definition streaming_at (chunks : list (Z * list Z)) : option (list Z) :=
  match updates_at verushash_create_context chunks with
  | Some ctx => Some (snd (verushash_finalize ctx))
  | None => None
  end.

End Sponge.

(* ================================================================== *)

(** ** Vocabulary of the specification

    The definitions below follow the words of the specification; the
    theorems compare them with the definitions taken from the source. *)

(** A block is a 64-byte unit of input. *)
Definition full_block (b : list Z) : Prop := length b = VERUS_BLOCKSIZE.

(** The complete 64-byte blocks of a message, in order. *)
Fixpoint split_blocks (n : nat) (d : list Z) : list (list Z) :=
  match n with
  | O => []
  | S n' => firstn VERUS_BLOCKSIZE d :: split_blocks n' (skipn VERUS_BLOCKSIZE d)
  end.

Definition full_blocks (d : list Z) : list (list Z) :=
  split_blocks (length d / VERUS_BLOCKSIZE) d.

(** The 0-63 bytes that follow the last complete block. *)
Definition trailing (d : list Z) : list Z :=
  skipn (VERUS_BLOCKSIZE * (length d / VERUS_BLOCKSIZE)) d.

(** The final padded block of the specification (4.2 step 3): the trailing
    bytes, the marker [0x80], zero fill up to offset 56, and the length in
    bits as a 64-bit value in the last 8 bytes. *)
Definition spec_final_block (tail : list Z) (total_bytes : Z) : list Z :=
  tail ++ [0x80%Z] ++ repeat 0%Z (55 - length tail) ++ le_bytes 8 (total_bytes * 8)%Z.

(** The bytes waiting in the buffer of a context. *)
Definition pending (ctx : verushash_ctx) : list Z :=
  firstn (buffer_len ctx) (buffer ctx).

(** A context between two calls of the interface: a 64-byte buffer that is
    not full and a byte count in the range of [uint64_t]. *)
Definition ctx_wf (ctx : verushash_ctx) : Prop :=
  length (buffer ctx) = VERUS_BLOCKSIZE
  /\ buffer_len ctx < VERUS_BLOCKSIZE
  /\ (0 <= total_len ctx < 2 ^ 64)%Z.

(** A context whose state, buffer and counters are all zero. *)
Definition zeroed_ctx : verushash_ctx :=
  {| buffer := repeat 0%Z VERUS_BLOCKSIZE;
     buffer_len := 0;
     total_len := 0;
     state := repeat (repeat 0%Z 16) 4 |}.

(** The four registers of the hardware path hold 16 bytes each. *)
Definition lanes16 (s : m128i * m128i * m128i * m128i) : Prop :=
  let '(s0, s1, s2, s3) := s in
  length s0 = 16 /\ length s1 = 16 /\ length s2 = 16 /\ length s3 = 16.

(** A 512-bit state: four lanes of 16 bytes. *)
Definition state_wf (st : list m128i) : Prop :=
  length st = 4 /\ Forall (fun lane => length lane = 16) st.

Section SpecWords.

Variable aes_ni : bool.

(** Single-shot hashing as the specification words it (4.2): absorb every
    complete block, then always build and absorb the final padded block
    and return the output of that last permutation. *)
Definition spec_hash (message : list Z) : list Z :=
  let st := fold_left (absorb_block aes_ni) (full_blocks message) initial_state in
  let final := spec_final_block (trailing message) (Z.of_nat (length message)) in
  haraka512 aes_ni (store_state (xor_state st final)).

(** [finalize] as the specification words it (4.3): with more than 55
    pending bytes the buffer is zero-padded and absorbed first; the marker
    then goes, in both cases, into the block that carries the length. *)
Definition spec_finalize (ctx : verushash_ctx) : list Z :=
  if 55 <? buffer_len ctx then
    let padded := pending ctx ++ repeat 0%Z (VERUS_BLOCKSIZE - buffer_len ctx) in
    let st := absorb_block aes_ni (state ctx) padded in
    haraka512 aes_ni (store_state (xor_state st (spec_final_block [] (total_len ctx))))
  else
    haraka512 aes_ni
      (store_state (xor_state (state ctx) (spec_final_block (pending ctx) (total_len ctx)))).

(** The absorption step as the specification words it (4.2 step 2): xor
    the block lane-wise into the state, run the permutation on the result,
    overwrite lanes 0 and 1 with its 256-bit output; lanes 2 and 3 keep the
    xored values. *)
Definition spec_absorb (st : list m128i) (block : list Z) : list m128i :=
  let x := fun i => _mm_xor_si128 (nth i st []) (_mm_load_si128 block (16 * i)) in
  let out := haraka512 aes_ni (x 0 ++ x 1 ++ x 2 ++ x 3) in
  [firstn 16 out; firstn 16 (skipn 16 out); x 2; x 3].

End SpecWords.

(** Rotation of a 32-bit word to the left and to the right. *)
Definition rotl32 (x : Z) (n : Z) : Z :=
  Z.lor (Z.shiftl x n mod 2 ^ 32) (Z.shiftr x (32 - n)).

Definition rotr32 (x : Z) (n : Z) : Z := rotl32 x (32 - n).

(** The cyclic rotation of the four lanes, [s0 <- s1 <- s2 <- s3 <- s0], on a
    block seen as sixteen words (four words per lane). *)
Definition lane_rotate (ws : list Z) : list Z := skipn 4 ws ++ firstn 4 ws.

(** The cyclic rotation of sixteen words by one word. *)
Definition word_rotate (ws : list Z) : list Z := skipn 1 ws ++ firstn 1 ws.

(** The word-wise step of a software round, without the permutation. *)
Definition sw_mix (ws : list Z) : list Z :=
  map (fun i => sw_mix_word (get ws i) i) (seq 0 16).

(** A software round as the specification words it: the word-wise step and,
    on odd rounds, the lane rotation of the hardware path. *)
Definition spec_sw_round (ws : list Z) (round : nat) : list Z :=
  if Nat.odd round then lane_rotate (sw_mix ws) else sw_mix ws.

(* ================================================================== *)
(** ** libfiropow: bit manipulation (bit_manipulation.h) *)

Module BitManipulation.

Definition fnv_offset_basis : Z := 0x811c9dc5.
Definition fnv_prime : Z := 0x01000193.

(** [fnv1a] (lines 24-27), on [uint32_t]. *)
Definition fnv1a (u v : Z) : Z := ((Z.lxor u v * fnv_prime) mod 2 ^ 32)%Z.

(** [rotl32] (lines 30-33).  When [n & 31] is 0 the C expression shifts
    right by 32, which C leaves undefined; the properties below exclude that
    case. *)
Definition rotl32 (x n : Z) : Z :=
  Z.lor (Z.shiftl x (Z.land n 31) mod 2 ^ 32) (Z.shiftr x (32 - Z.land n 31)).

(** [rotr32] (lines 36-39), with the same proviso. *)
Definition rotr32 (x n : Z) : Z :=
  Z.lor (Z.shiftr x (Z.land n 31)) (Z.shiftl x (32 - Z.land n 31) mod 2 ^ 32).

(** [mul_hi32] (lines 42-45): the product is taken on [uint64_t] and its
    upper half is cast back to [uint32_t]. *)
Definition mul_hi32 (x y : Z) : Z :=
  (Z.shiftr ((x * y) mod 2 ^ 64) 32 mod 2 ^ 32)%Z.

(** The loop of the portable branch of [clz32] (lines 63-66). *)
Fixpoint clz32_loop (fuel : nat) (x count : Z) : Z :=
  match fuel with
  | O => count
  | S fuel' =>
      if Z.land x 0x80000000 =? 0
      then clz32_loop fuel' (Z.shiftl x 1 mod 2 ^ 32)%Z ((count + 1) mod 2 ^ 32)%Z
      else count
  end%Z.

(** [clz32] (lines 48-69), portable branch; the two other branches of the
    conditional compilation call a compiler intrinsic.  A non-zero word has
    a set bit, which reaches bit 31 within 31 iterations: 32 is enough
    fuel. *)
Definition clz32 (x : Z) : Z :=
  if (x =? 0)%Z then 32%Z else clz32_loop 32 x 0.

(** [popcount32] (lines 72-84), portable branch; the two other branches of
    the conditional compilation call a compiler intrinsic. *)
Definition popcount32 (x : Z) : Z :=
  let x := ((x - Z.land (Z.shiftr x 1) 0x55555555) mod 2 ^ 32)%Z in
  let x := ((Z.land x 0x33333333 + Z.land (Z.shiftr x 2) 0x33333333) mod 2 ^ 32)%Z in
  Z.shiftr
    ((Z.land ((x + Z.shiftr x 4) mod 2 ^ 32) 0x0F0F0F0F * 0x01010101) mod 2 ^ 32)%Z
    24.

End BitManipulation.

(** ** libfiropow: KISS99 generator (kiss99.hpp) *)

Module Kiss99.

(** [struct kiss99] (lines 12-14): four [uint32_t] fields. *)
Record kiss99 : Type := mk {
  z : Z;
  w : Z;
  jsr : Z;
  jcong : Z
}.

(** [operator()] (lines 23-36): the state after the call and the number
    returned. *)
Definition next (s : kiss99) : kiss99 * Z :=
  let z := ((36969 * Z.land (z s) 65535 + Z.shiftr (z s) 16) mod 2 ^ 32)%Z in
  let w := ((18000 * Z.land (w s) 65535 + Z.shiftr (w s) 16) mod 2 ^ 32)%Z in
  let mwc := ((Z.shiftl z 16 mod 2 ^ 32 + w) mod 2 ^ 32)%Z in
  let jsr := Z.lxor (jsr s) (Z.shiftl (jsr s) 17 mod 2 ^ 32) in
  let jsr := Z.lxor jsr (Z.shiftr jsr 13) in
  let jsr := Z.lxor jsr (Z.shiftl jsr 5 mod 2 ^ 32) in
  let jcong := ((69069 * jcong s + 1234567) mod 2 ^ 32)%Z in
  ({| z := z; w := w; jsr := jsr; jcong := jcong |},
   ((Z.lxor mwc jcong + jsr) mod 2 ^ 32)%Z).

End Kiss99.

(** ** libfiropow: byte order (endianness.hpp) *)

Module Endianness.

(** The value of [__BYTE_ORDER__] on the target. *)
Inductive byte_order : Type := LittleEndian | BigEndian.

(** [__builtin_bswap32] and [__builtin_bswap64]: the argument with the
    order of its bytes reversed. *)
Definition bswap32 (x : Z) : Z := le_value (rev (le_bytes 4 x)).
Definition bswap64 (x : Z) : Z := le_value (rev (le_bytes 8 x)).

(** [le::uint32] (lines 14-21). *)
Definition le_uint32 (host : byte_order) (x : Z) : Z :=
  match host with
  | LittleEndian => x
  | BigEndian => bswap32 x
  end.

(** [le::uint32s] (lines 25-31). *)
Definition le_uint32s (host : byte_order) (arr : list Z) : list Z :=
  map (le_uint32 host) arr.

(** [be::uint32] (lines 39-46). *)
Definition be_uint32 (host : byte_order) (x : Z) : Z :=
  match host with
  | BigEndian => x
  | LittleEndian => bswap32 x
  end.

(** [be::uint64] (lines 49-56). *)
Definition be_uint64 (host : byte_order) (x : Z) : Z :=
  match host with
  | BigEndian => x
  | LittleEndian => bswap64 x
  end.

(** The bytes of an [n]-byte integer in the memory of the host. *)
Definition native_bytes (host : byte_order) (n : nat) (v : Z) : list Z :=
  match host with
  | LittleEndian => le_bytes n v
  | BigEndian => rev (le_bytes n v)
  end.

End Endianness.

(** A 32-bit word. *)
Definition word32 (x : Z) : Prop := (0 <= x < 2 ^ 32)%Z.

(** [x ^ (x << k)] and [x ^ (x >> k)] on 32-bit words. *)
Definition xor_shl (k x : Z) : Z := Z.lxor x (Z.shiftl x k mod 2 ^ 32).
Definition xor_shr (k x : Z) : Z := Z.lxor x (Z.shiftr x k).

(** The inverse of the shift-register step of KISS99. *)
Definition jsr_unstep (y : Z) : Z :=
  xor_shl 17 (xor_shr 26 (xor_shr 13 (xor_shl 20 (xor_shl 10 (xor_shl 5 y))))).

(** The inverses of [fnv_prime] and of the multiplier 69069 modulo 2^32. *)
Definition fnv_prime_inverse : Z := 0x359c449b.
Definition jcong_multiplier_inverse : Z := 0xa5e2a705.

(** The number of set bits among the [n] lowest bits of [x]. *)
Fixpoint bit_count (n : nat) (x : Z) : Z :=
  match n with
  | O => 0%Z
  | S n' => (Z.b2z (Z.odd x) + bit_count n' (x / 2))%Z
  end.

(** A number written with eight base-16 digits, lowest first. *)
Definition digits16 (n0 n1 n2 n3 n4 n5 n6 n7 : Z) : Z :=
  (n0 + 16 * (n1 + 16 * (n2 + 16 * (n3 + 16 * (n4 + 16 * (n5 + 16 * (n6 + 16 * (n7 + 16 * 0))))))))%Z.

(** The first two steps of the bit count on one base-16 digit. *)
Definition nibble_pairs (n : Z) : Z := (n - Z.land (Z.shiftr n 1) 5)%Z.
Definition nibble_count (n : Z) : Z :=
  (Z.land (nibble_pairs n) 3 + Z.land (Z.shiftr (nibble_pairs n) 2) 3)%Z.

(* ================================================================== *)
(** * Properties *)

(** ** Arrays and byte strings *)

Lemma upd_length (A : Type) (l : list A) i v : length (upd l i v) = length l.
Proof.
  revert i; induction l as [|h t IH]; intros [|j]; simpl; auto.
Qed.

Lemma upd_app_here (A : Type) (a b : list A) x v :
  upd (a ++ x :: b) (length a) v = a ++ v :: b.
Proof.
  induction a as [|h t IH]; simpl; [reflexivity | now rewrite IH].
Qed.

Lemma le_bytes_length n v : length (le_bytes n v) = n.
Proof.
  revert v; induction n as [|n IH]; intros v; simpl; [reflexivity | now rewrite IH].
Qed.

Lemma le_bytes_mod n v :
  le_bytes n (v mod 2 ^ (8 * Z.of_nat n)) = le_bytes n v.
Proof.
  revert v; induction n as [|n IH]; intros v; [reflexivity|].
  cbn [le_bytes].
  replace (8 * Z.of_nat (S n))%Z with (8 + 8 * Z.of_nat n)%Z by lia.
  rewrite Z.pow_add_r by lia.
  change (2 ^ 8)%Z with 256%Z.
  assert (Hp : (0 < 2 ^ (8 * Z.of_nat n))%Z) by (apply Z.pow_pos_nonneg; lia).
  rewrite Z.rem_mul_r by lia.
  set (q := ((v / 256) mod 2 ^ (8 * Z.of_nat n))%Z).
  pose proof (Z.mod_pos_bound v 256 eq_refl) as Hr.
  f_equal.
  - replace (v mod 256 + 256 * q)%Z with (v mod 256 + q * 256)%Z by lia.
    rewrite Z.mod_add by lia. apply Z.mod_mod; lia.
  - rewrite <- (IH (v / 256)%Z). f_equal. fold q.
    replace (v mod 256 + 256 * q)%Z with (v mod 256 + q * 256)%Z by lia.
    rewrite Z.div_add by lia.
    rewrite (Z.div_small (v mod 256) 256) by lia. lia.
Qed.

Lemma le_bytes_8_mod v : le_bytes 8 (v mod 2 ^ 64) = le_bytes 8 v.
Proof. exact (le_bytes_mod 8 v). Qed.

Lemma skipn_repeat (x : Z) n k : skipn k (repeat x n) = repeat x (n - k).
Proof.
  revert n; induction k as [|k IH]; intros [|n]; simpl; auto.
Qed.

Lemma firstn_app_exact (a b : list Z) n : length a = n -> firstn n (a ++ b) = a.
Proof.
  intros <-. now rewrite firstn_app, Nat.sub_diag, firstn_all, firstn_O, app_nil_r.
Qed.

Lemma skipn_app_exact (a b : list Z) n : length a = n -> skipn n (a ++ b) = b.
Proof.
  intros <-. now rewrite skipn_app, Nat.sub_diag, skipn_all.
Qed.

(** ** Blocks of a message *)

Lemma concat_blocks_length bs :
  Forall full_block bs -> length (concat bs) = VERUS_BLOCKSIZE * length bs.
Proof.
  induction 1 as [|b bs Hb _ IH]; [reflexivity|].
  simpl concat. rewrite length_app, IH, Hb. simpl length. lia.
Qed.

Lemma split_blocks_full n d : Forall full_block (split_blocks n d)
  \/ length d < VERUS_BLOCKSIZE * n.
Proof.
  revert d; induction n as [|n IH]; intros d; [left; constructor|].
  destruct (Nat.lt_ge_cases (length d) VERUS_BLOCKSIZE) as [Hlt|Hge].
  - right. unfold VERUS_BLOCKSIZE in *. lia.
  - destruct (IH (skipn VERUS_BLOCKSIZE d)) as [Hf|Hs].
    + left. constructor; [|exact Hf].
      unfold full_block. rewrite length_firstn. lia.
    + right. rewrite length_skipn in Hs. unfold VERUS_BLOCKSIZE in *. lia.
Qed.

Lemma split_blocks_concat n d :
  VERUS_BLOCKSIZE * n <= length d ->
  concat (split_blocks n d) ++ skipn (VERUS_BLOCKSIZE * n) d = d.
Proof.
  revert d; induction n as [|n IH]; intros d Hn.
  - rewrite Nat.mul_0_r. reflexivity.
  - cbn [split_blocks concat]. rewrite <- app_assoc.
    replace (VERUS_BLOCKSIZE * S n) with (VERUS_BLOCKSIZE * n + VERUS_BLOCKSIZE) by lia.
    rewrite <- skipn_skipn, IH.
    + apply firstn_skipn.
    + rewrite length_skipn. lia.
Qed.

(** Every message is its complete blocks followed by fewer than 64 bytes. *)
Lemma message_decomposition d :
  d = concat (full_blocks d) ++ trailing d
  /\ Forall full_block (full_blocks d)
  /\ length (trailing d) = length d mod VERUS_BLOCKSIZE.
Proof.
  unfold full_blocks, trailing.
  assert (Hb : VERUS_BLOCKSIZE <> 0) by discriminate.
  pose proof (Nat.div_mod_eq (length d) VERUS_BLOCKSIZE) as Hdm.
  assert (Hle : VERUS_BLOCKSIZE * (length d / VERUS_BLOCKSIZE) <= length d) by lia.
  split; [symmetry; now apply split_blocks_concat|].
  split.
  - destruct (split_blocks_full (length d / VERUS_BLOCKSIZE) d); [assumption | lia].
  - rewrite length_skipn. lia.
Qed.

Lemma blocks_short_nil bs tail :
  Forall full_block bs -> length (concat bs ++ tail) < VERUS_BLOCKSIZE -> bs = [].
Proof.
  intros Hf Hlen. destruct bs as [|b bs]; [reflexivity|exfalso].
  rewrite length_app, (concat_blocks_length Hf) in Hlen. simpl length in Hlen. lia.
Qed.

Section SpongeFacts.

Variable aes_ni : bool.

(** ** The absorption loop *)

(** On a message made of complete blocks [bs] and fewer than 64 trailing
    bytes, the loop absorbs exactly the blocks, in order, and leaves the
    trailing bytes, whenever the fuel covers the number of blocks. *)
Lemma absorb_loop_blocks bs : forall tail st fuel,
  Forall full_block bs -> length tail < VERUS_BLOCKSIZE -> length bs <= fuel ->
  absorb_loop aes_ni fuel st (concat bs ++ tail)
  = (fold_left (absorb_block aes_ni) bs st, tail).
Proof.
  induction bs as [|b bs IH]; intros tail st fuel Hf Ht Hfuel.
  - simpl concat. simpl app. destruct fuel as [|fuel]; [reflexivity|].
    cbn [absorb_loop fold_left].
    destruct (Nat.leb_spec VERUS_BLOCKSIZE (length tail)); [lia | reflexivity].
  - inversion Hf as [|? ? Hb Hbs]; subst.
    destruct fuel as [|fuel]; [simpl in Hfuel; lia|].
    cbn [absorb_loop concat fold_left]. rewrite <- app_assoc.
    destruct (Nat.leb_spec VERUS_BLOCKSIZE (length (b ++ concat bs ++ tail))) as [_|Hlt].
    + rewrite (firstn_app_exact _ _ Hb), (skipn_app_exact _ _ Hb).
      apply IH; [assumption | assumption | simpl in Hfuel; lia].
    + rewrite length_app in Hlt. unfold full_block in Hb. lia.
Qed.

(** The fuel passed by the callers is enough: the loop leaves through its
    guard, with fewer than 64 bytes left. *)
Lemma absorb_loop_exit st d :
  absorb_loop aes_ni (length d) st d
  = (fold_left (absorb_block aes_ni) (full_blocks d) st, trailing d)
  /\ length (trailing d) < VERUS_BLOCKSIZE.
Proof.
  destruct (message_decomposition d) as (Hd & Hf & Hl).
  assert (Hlt : length (trailing d) < VERUS_BLOCKSIZE).
  { rewrite Hl. apply Nat.mod_upper_bound. discriminate. }
  split; [|exact Hlt].
  rewrite Hd at 2. apply absorb_loop_blocks; try assumption.
  rewrite Hd at 2. rewrite length_app, (concat_blocks_length Hf).
  unfold VERUS_BLOCKSIZE. lia.
Qed.

End SpongeFacts.

(** ** Padded blocks *)

Ltac list_len :=
  repeat (rewrite ?length_app, ?length_firstn, ?length_skipn, ?repeat_length,
                  ?le_bytes_length, ?upd_length; cbn [length]).

Lemma firstn_app_plus (a b : list Z) n :
  firstn (length a + n) (a ++ b) = a ++ firstn n b.
Proof.
  induction a as [|h t IH]; [reflexivity|]. cbn [length Nat.add app firstn].
  now rewrite IH.
Qed.

Lemma store64_last (p : list Z) v :
  length p = VERUS_BLOCKSIZE ->
  store64 p (VERUS_BLOCKSIZE - 8) v = firstn 56 p ++ le_bytes 8 v.
Proof.
  intros Hp. unfold store64, memcpy. rewrite le_bytes_length.
  change (VERUS_BLOCKSIZE - 8) with 56.
  rewrite (skipn_all2 p) by (rewrite Hp; unfold VERUS_BLOCKSIZE; lia).
  now rewrite app_nil_r.
Qed.

Lemma memcpy_front (dst src : list Z) :
  memcpy dst 0 src = src ++ skipn (length src) dst.
Proof. reflexivity. Qed.

(** The array [p] with its cell [k] singled out. *)
Lemma array_cell (p : list Z) k :
  k < length p -> p = firstn k p ++ nth k p 0%Z :: skipn (S k) p.
Proof.
  revert k; induction p as [|h t IH]; intros k Hk; simpl in Hk; [lia|].
  destruct k as [|k]; [reflexivity|].
  cbn [firstn nth skipn app]. f_equal. apply IH. lia.
Qed.

Lemma upd_cell (p : list Z) k v :
  k < length p -> upd p k v = firstn k p ++ v :: skipn (S k) p.
Proof.
  intros Hk. rewrite (array_cell p Hk) at 1.
  assert (Hl : length (firstn k p) = k) by (rewrite length_firstn; lia).
  pose proof (upd_app_here (firstn k p) (skipn (S k) p) (nth k p 0%Z) v) as H.
  now rewrite Hl in H.
Qed.

(** Lines 203-208 when the marker and the length field both fit: the block
    is the one the specification describes, with a 32-bit bit count. *)
Lemma hash_padded_block_fits tail input_len :
  length tail <= 55 ->
  hash_padded_block tail input_len
  = tail ++ [0x80%Z] ++ repeat 0%Z (55 - length tail)
         ++ le_bytes 8 ((input_len * 8) mod 2 ^ 32)%Z.
Proof.
  intros Hk. unfold hash_padded_block.
  rewrite memcpy_front, skipn_repeat.
  assert (Hrep : repeat 0%Z (VERUS_BLOCKSIZE - length tail)
                 = 0%Z :: repeat 0%Z (55 - length tail) ++ repeat 0%Z 8).
  { rewrite <- repeat_app. change (0%Z :: ?l) with (repeat 0%Z 1 ++ l).
    rewrite <- repeat_app. f_equal. unfold VERUS_BLOCKSIZE. lia. }
  rewrite Hrep, upd_app_here, store64_last.
  - replace (tail ++ 128%Z :: repeat 0%Z (55 - length tail) ++ repeat 0%Z 8)
      with ((tail ++ 128%Z :: repeat 0%Z (55 - length tail)) ++ repeat 0%Z 8)
      by (now rewrite <- app_assoc).
    rewrite firstn_app_exact by (list_len; lia).
    now rewrite <- app_assoc.
  - list_len. unfold VERUS_BLOCKSIZE. lia.
Qed.

(** Lines 203-208 with 56 to 63 trailing bytes: the length field is written
    over the marker and over the trailing bytes from offset 56 on. *)
Lemma hash_padded_block_overwritten tail input_len :
  56 <= length tail < VERUS_BLOCKSIZE ->
  hash_padded_block tail input_len
  = firstn 56 tail ++ le_bytes 8 ((input_len * 8) mod 2 ^ 32)%Z.
Proof.
  intros Hk. unfold hash_padded_block.
  rewrite memcpy_front, skipn_repeat, store64_last.
  - f_equal. rewrite upd_cell by (list_len; unfold VERUS_BLOCKSIZE in *; lia).
    rewrite firstn_app, firstn_firstn, length_firstn.
    replace (Nat.min 56 (length tail)) with 56 by lia.
    replace (56 - _) with 0 by (list_len; unfold VERUS_BLOCKSIZE in *; lia).
    rewrite firstn_O, app_nil_r, firstn_app.
    replace (56 - length tail) with 0 by lia.
    now rewrite firstn_O, app_nil_r.
  - list_len. unfold VERUS_BLOCKSIZE in *. lia.
Qed.

Lemma spec_final_block_length tail total :
  length tail <= 55 -> length (spec_final_block tail total) = VERUS_BLOCKSIZE.
Proof.
  intros Hk. unfold spec_final_block. list_len. unfold VERUS_BLOCKSIZE. lia.
Qed.

Section FinalizeFacts.

Variable aes_ni : bool.

(** [verushash_finalize] with at most 55 pending bytes: one final block,
    which holds the pending bytes, the marker, the zero fill and the
    64-bit bit count. *)
Lemma finalize_fits ctx :
  ctx_wf ctx -> buffer_len ctx <= 55 ->
  verushash_finalize aes_ni ctx
  = let final := spec_final_block (pending ctx) (total_len ctx) in
    let st := xor_state (state ctx) final in
    ({| buffer := final; buffer_len := buffer_len ctx + 1;
        total_len := total_len ctx; state := st |},
     haraka512 aes_ni (store_state st)).
Proof.
  intros (Hlen & Hbl & _) Hk. unfold verushash_finalize.
  destruct (Nat.ltb_spec (VERUS_BLOCKSIZE - 8) (buffer_len ctx + 1)) as [Hgt|_];
    [unfold VERUS_BLOCKSIZE in Hgt; lia|].
  assert (Hfinal :
    store64 (memset (upd (buffer ctx) (buffer_len ctx) 128%Z) (buffer_len ctx + 1) 0%Z
                    (VERUS_BLOCKSIZE - 8 - (buffer_len ctx + 1)))
            (VERUS_BLOCKSIZE - 8) ((total_len ctx * 8) mod 2 ^ 64)%Z
    = spec_final_block (pending ctx) (total_len ctx)).
  { rewrite store64_last.
    - rewrite le_bytes_8_mod. unfold spec_final_block, pending, memset.
      rewrite upd_cell by (rewrite Hlen; exact Hbl).
      set (p := firstn (buffer_len ctx) (buffer ctx)).
      assert (Hp : length p = buffer_len ctx)
        by (unfold p; rewrite length_firstn; unfold VERUS_BLOCKSIZE in *; lia).
      replace (buffer_len ctx + 1) with (length p + 1) by lia.
      rewrite firstn_app_plus.
      replace (firstn 1 (128%Z :: skipn (S (buffer_len ctx)) (buffer ctx)))
        with [128%Z] by reflexivity.
      replace (VERUS_BLOCKSIZE - 8 - (length p + 1)) with (55 - length p)
        by (unfold VERUS_BLOCKSIZE; lia).
      rewrite (app_assoc (p ++ [128%Z])).
      rewrite firstn_app_exact by (list_len; lia).
      now rewrite <- !app_assoc.
    - unfold memset. list_len. unfold VERUS_BLOCKSIZE in *. lia. }
  rewrite Hfinal. reflexivity.
Qed.

(** [verushash_finalize] with 56 to 63 pending bytes: the marker goes into
    the buffered block, which is zero-filled and absorbed as a full block;
    the final block is zero except for the 64-bit bit count. *)
Lemma finalize_overflow ctx :
  ctx_wf ctx -> 55 < buffer_len ctx ->
  verushash_finalize aes_ni ctx
  = let marked := pending ctx ++ [0x80%Z] ++ repeat 0%Z (63 - buffer_len ctx) in
    let final := repeat 0%Z 56 ++ le_bytes 8 (total_len ctx * 8)%Z in
    let st := xor_state (absorb_block aes_ni (state ctx) marked) final in
    ({| buffer := final; buffer_len := 0;
        total_len := total_len ctx; state := st |},
     haraka512 aes_ni (store_state st)).
Proof.
  intros (Hlen & Hbl & _) Hk. unfold verushash_finalize.
  destruct (Nat.ltb_spec (VERUS_BLOCKSIZE - 8) (buffer_len ctx + 1)) as [_|Hle];
    [|unfold VERUS_BLOCKSIZE in Hle; lia].
  set (p := firstn (buffer_len ctx) (buffer ctx)).
  assert (Hp : length p = buffer_len ctx)
    by (unfold p; rewrite length_firstn; unfold VERUS_BLOCKSIZE in *; lia).
  assert (Hmarked :
    memset (upd (buffer ctx) (buffer_len ctx) 128%Z) (buffer_len ctx + 1) 0%Z
           (VERUS_BLOCKSIZE - (buffer_len ctx + 1))
    = pending ctx ++ [128%Z] ++ repeat 0%Z (63 - buffer_len ctx)).
  { unfold memset, pending. fold p.
    rewrite upd_cell by (rewrite Hlen; exact Hbl). fold p.
    replace (buffer_len ctx + 1 + (VERUS_BLOCKSIZE - (buffer_len ctx + 1)))
      with (length (p ++ 128%Z :: skipn (S (buffer_len ctx)) (buffer ctx))).
    2:{ list_len. unfold VERUS_BLOCKSIZE in *. lia. }
    rewrite skipn_all, app_nil_r.
    replace (buffer_len ctx + 1) with (length p + 1) at 1 by lia.
    rewrite firstn_app_plus.
      replace (firstn 1 (128%Z :: skipn (S (buffer_len ctx)) (buffer ctx)))
        with [128%Z] by reflexivity. rewrite <- app_assoc.
    do 3 f_equal. unfold VERUS_BLOCKSIZE. lia. }
  rewrite Hmarked.
  assert (Hfinal :
    store64 (memset (pending ctx ++ [128%Z] ++ repeat 0%Z (63 - buffer_len ctx)) 0 0%Z
                    VERUS_BLOCKSIZE)
            (VERUS_BLOCKSIZE - 8) ((total_len ctx * 8) mod 2 ^ 64)%Z
    = repeat 0%Z 56 ++ le_bytes 8 (total_len ctx * 8)%Z).
  { assert (Hz : memset (pending ctx ++ [128%Z] ++ repeat 0%Z (63 - buffer_len ctx)) 0 0%Z
                        VERUS_BLOCKSIZE = repeat 0%Z VERUS_BLOCKSIZE).
    { unfold memset, pending. fold p. cbn [firstn app Nat.add].
      rewrite skipn_all2, app_nil_r; [reflexivity|].
      list_len. unfold VERUS_BLOCKSIZE in *. lia. }
    rewrite Hz, store64_last by apply repeat_length.
    rewrite le_bytes_8_mod. reflexivity. }
  rewrite Hfinal. reflexivity.
Qed.

End FinalizeFacts.

(** ** The streaming context *)

Section UpdateFacts.

Variable aes_ni : bool.

(** End of [verushash_update] (lines 327-330) on an empty buffer. *)
Lemma stash_tail buf tail total st :
  length buf = VERUS_BLOCKSIZE -> length tail < VERUS_BLOCKSIZE ->
  (0 <= total < 2 ^ 64)%Z ->
  let ctx' :=
    if 0 <? length tail then
      {| buffer := memcpy buf 0 tail; buffer_len := 0 + length tail;
         total_len := total; state := st |}
    else
      {| buffer := buf; buffer_len := 0; total_len := total; state := st |} in
  ctx_wf ctx' /\ state ctx' = st /\ pending ctx' = tail /\ total_len ctx' = total.
Proof.
  intros Hbuf Htail Htotal. cbv zeta.
  destruct (Nat.ltb_spec 0 (length tail)) as [Hpos|Hz].
  - unfold ctx_wf, pending. cbn [buffer buffer_len state total_len Nat.add].
    rewrite memcpy_front. repeat split.
    + list_len. lia.
    + exact Htail.
    + apply Htotal.
    + apply Htotal.
    + now apply firstn_app_exact.
  - assert (tail = []) by (destruct tail; [reflexivity | simpl in Hz; lia]). subst tail.
    unfold ctx_wf, pending. cbn [buffer buffer_len state total_len firstn].
    repeat split; try apply Htotal; [exact Hbuf | unfold VERUS_BLOCKSIZE; lia].
Qed.

(** [verushash_update] absorbs the complete blocks of "pending bytes
    followed by the chunk" and keeps the rest pending. *)
Lemma update_spec ctx data bs tail :
  ctx_wf ctx -> Forall full_block bs -> length tail < VERUS_BLOCKSIZE ->
  pending ctx ++ data = concat bs ++ tail ->
  let ctx' := verushash_update aes_ni ctx data in
  ctx_wf ctx'
  /\ state ctx' = fold_left (absorb_block aes_ni) bs (state ctx)
  /\ pending ctx' = tail
  /\ total_len ctx' = ((total_len ctx + Z.of_nat (length data)) mod 2 ^ 64)%Z.
Proof.
  intros (Hbuf & Hbl & _) Hbs Htail Hmsg. cbv zeta. unfold verushash_update.
  set (total := ((total_len ctx + Z.of_nat (length data)) mod 2 ^ 64)%Z).
  assert (Htotal : (0 <= total < 2 ^ 64)%Z) by (apply Z.mod_pos_bound; lia).
  assert (Hpend : length (pending ctx) = buffer_len ctx).
  { unfold pending. rewrite length_firstn. lia. }
  assert (Hfuel : forall d bs', d = concat bs' ++ tail -> Forall full_block bs' ->
                                length bs' <= length d).
  { intros d bs' -> Hf. rewrite length_app, (concat_blocks_length Hf).
    unfold VERUS_BLOCKSIZE. lia. }
  destruct (Nat.ltb_spec 0 (buffer_len ctx)) as [Hpos|Hzero].
  - (* some bytes are pending *)
    destruct (Nat.ltb_spec (length data) (VERUS_BLOCKSIZE - buffer_len ctx)) as [Hshort|Hlong].
    + (* the chunk does not fill the buffer *)
      rewrite firstn_all, skipn_all.
      destruct (Nat.eqb_spec (buffer_len ctx + length data) VERUS_BLOCKSIZE) as [Heq|_];
        [lia|].
      cbn [length absorb_loop Nat.ltb Nat.leb].
      assert (Hnil : bs = []).
      { apply (blocks_short_nil tail Hbs). rewrite <- Hmsg, length_app. lia. }
      subst bs. simpl in Hmsg. subst tail.
      unfold ctx_wf, pending. cbn [buffer buffer_len state total_len fold_left].
      unfold memcpy. repeat split.
      * list_len. lia.
      * lia.
      * apply Htotal.
      * apply Htotal.
      * rewrite app_assoc. apply firstn_app_exact. list_len. lia.
    + (* the chunk fills the buffer, which is absorbed *)
      set (needed := VERUS_BLOCKSIZE - buffer_len ctx) in *.
      replace (buffer_len ctx + needed) with VERUS_BLOCKSIZE by (unfold needed; lia).
      rewrite Nat.eqb_refl.
      assert (Hfull : memcpy (buffer ctx) (buffer_len ctx) (firstn needed data)
                      = pending ctx ++ firstn needed data).
      { unfold memcpy, pending. rewrite skipn_all2, app_nil_r; [reflexivity|].
        list_len. unfold needed. lia. }
      rewrite Hfull. set (block := pending ctx ++ firstn needed data).
      assert (Hblock : length block = VERUS_BLOCKSIZE).
      { unfold block. list_len. fold (pending ctx). rewrite Hpend. unfold needed. lia. }
      assert (Hmsg' : block ++ skipn needed data = concat bs ++ tail).
      { unfold block. now rewrite <- app_assoc, firstn_skipn. }
      destruct bs as [|b bs'].
      { exfalso. simpl in Hmsg'. apply (f_equal (@length Z)) in Hmsg'.
        rewrite length_app in Hmsg'. lia. }
      inversion Hbs as [|? ? Hb Hbs']; subst.
      cbn [concat] in Hmsg'. rewrite <- app_assoc in Hmsg'.
      assert (Hbeq : block = b).
      { apply (f_equal (firstn VERUS_BLOCKSIZE)) in Hmsg'.
        now rewrite (firstn_app_exact _ _ Hblock), (firstn_app_exact _ _ Hb) in Hmsg'. }
      assert (Hrest : skipn needed data = concat bs' ++ tail).
      { apply (f_equal (skipn VERUS_BLOCKSIZE)) in Hmsg'.
        now rewrite (skipn_app_exact _ _ Hblock), (skipn_app_exact _ _ Hb) in Hmsg'. }
      rewrite Hrest, absorb_loop_blocks by (eauto using Hfuel).
      rewrite Hbeq. cbn [fold_left].
      apply stash_tail; [congruence | exact Htail | exact Htotal].
  - (* the buffer is empty *)
    assert (Hz : buffer_len ctx = 0) by lia.
    unfold pending in Hmsg. rewrite Hz in Hmsg. simpl in Hmsg.
    subst data. rewrite absorb_loop_blocks by (eauto using Hfuel).
    rewrite Hz. apply stash_tail; assumption.
Qed.

End UpdateFacts.
Lemma create_context_wf : ctx_wf verushash_create_context.
Proof.
  unfold ctx_wf, verushash_create_context, VERUS_BLOCKSIZE. cbn [buffer buffer_len total_len].
  rewrite repeat_length. repeat split; lia.
Qed.

Lemma pending_length ctx : ctx_wf ctx -> length (pending ctx) = buffer_len ctx.
Proof.
  intros (Hbuf & Hbl & _). unfold pending. rewrite length_firstn. lia.
Qed.

Section StreamFacts.

Variable aes_ni : bool.

(** A sequence of [verushash_update] calls absorbs the complete blocks of
    the bytes supplied so far and keeps the remainder pending. *)
Lemma updates_spec chunks : forall ctx,
  ctx_wf ctx ->
  let ctx' := fold_left (verushash_update aes_ni) chunks ctx in
  ctx_wf ctx'
  /\ exists bs,
       Forall full_block bs
       /\ pending ctx ++ concat chunks = concat bs ++ pending ctx'
       /\ state ctx' = fold_left (absorb_block aes_ni) bs (state ctx)
       /\ total_len ctx'
          = ((total_len ctx + Z.of_nat (length (concat chunks))) mod 2 ^ 64)%Z.
Proof.
  induction chunks as [|c cs IH]; intros ctx Hwf; cbv zeta.
  - cbn [fold_left concat]. split; [exact Hwf|]. exists []. repeat split.
    + constructor.
    + now rewrite app_nil_r.
    + destruct Hwf as (_ & _ & Ht). cbn [length]. rewrite Z.add_0_r.
      symmetry. now apply Z.mod_small.
  - cbn [fold_left concat].
    destruct (message_decomposition (pending ctx ++ c)) as (Hd & Hf & Hl).
    assert (Ht : length (trailing (pending ctx ++ c)) < VERUS_BLOCKSIZE).
    { rewrite Hl. apply Nat.mod_upper_bound. discriminate. }
    destruct (@update_spec aes_ni ctx c _ _ Hwf Hf Ht Hd) as (Hwf1 & Hst1 & Hp1 & Ht1).
    destruct (IH _ Hwf1) as (Hwf2 & bs2 & Hf2 & Hm2 & Hst2 & Ht2).
    split; [exact Hwf2|].
    exists (full_blocks (pending ctx ++ c) ++ bs2). repeat split.
    + apply Forall_app. now split.
    + rewrite concat_app, <- app_assoc, <- Hm2, Hp1.
      now rewrite app_assoc, Hd at 1; rewrite <- app_assoc.
    + now rewrite fold_left_app, <- Hst1.
    + rewrite Ht2, Ht1, length_app, Nat2Z.inj_add, Zplus_mod_idemp_l.
      f_equal. lia.
Qed.

End StreamFacts.

(** ** The absorption step *)

Lemma xor_bytes_length a b : length (xor_bytes a b) = Nat.min (length a) (length b).
Proof.
  revert b; induction a as [|x a IH]; intros [|y b]; simpl; auto.
Qed.

Ltac explode l H :=
  repeat (destruct l as [|? l]; [discriminate H|]);
  destruct l; [clear H | discriminate H].

Lemma store_state_lanes (a b c d : m128i) :
  length a = 16 -> length b = 16 -> length c = 16 -> length d = 16 ->
  store_state [a; b; c; d] = a ++ b ++ c ++ d.
Proof.
  intros Ha Hb Hc Hd.
  explode a Ha. explode b Hb. explode c Hc. explode d Hd. reflexivity.
Qed.

Lemma load_lane_length block off :
  off + 16 <= length block -> length (_mm_load_si128 block off) = 16.
Proof.
  intros H. unfold _mm_load_si128. rewrite length_firstn, length_skipn. lia.
Qed.

Section AbsorbFacts.

Variable aes_ni : bool.

(** The code of the absorption step computes the step of the
    specification. *)
Lemma absorb_block_spec st block :
  state_wf st -> length block = VERUS_BLOCKSIZE ->
  absorb_block aes_ni st block = spec_absorb aes_ni st block.
Proof.
  intros [Hlen Hlanes] Hblock.
  destruct st as [|l0 [|l1 [|l2 [|l3 [|? ?]]]]]; try discriminate Hlen.
  inversion Hlanes as [|? ? H0 Hl1]; subst.
  inversion Hl1 as [|? ? H1 Hl2]; subst.
  inversion Hl2 as [|? ? H2 Hl3]; subst.
  inversion Hl3 as [|? ? H3 _]; subst.
  unfold absorb_block, spec_absorb, xor_state.
  cbn [fold_left seq upd nth Nat.mul Nat.add].
  rewrite store_state_lanes; [reflexivity | ..];
    unfold _mm_xor_si128; rewrite xor_bytes_length, load_lane_length;
    unfold VERUS_BLOCKSIZE in *; lia.
Qed.

End AbsorbFacts.

(** ** Sizes: lanes, states and digests *)

Lemma initial_state_wf : state_wf initial_state.
Proof.
  split; [reflexivity|]. repeat constructor.
Qed.

(** The AES round of the model on the round-1 example of FIPS-197,
    appendix B (state after the first AddRoundKey, round key 1). *)
Lemma aesenc_fips197_round1 :
  _mm_aesenc_si128
    [0x00; 0x10; 0x20; 0x30; 0x40; 0x50; 0x60; 0x70;
     0x80; 0x90; 0xa0; 0xb0; 0xc0; 0xd0; 0xe0; 0xf0]%Z
    [0xd6; 0xaa; 0x74; 0xfd; 0xd2; 0xaf; 0x72; 0xfa;
     0xda; 0xa6; 0x78; 0xf1; 0xd6; 0xab; 0x76; 0xfe]%Z
  = [0x89; 0xd8; 0x10; 0xe8; 0x85; 0x5a; 0xce; 0x68;
     0x2d; 0x18; 0x43; 0xd8; 0xcb; 0x12; 0x8f; 0xe4]%Z.
Proof. reflexivity. Qed.

Lemma round_constant_length (k : nat) : length (nth (Nat.land k 7) HARAKA_RC []) = 16.
Proof.
  assert (Hland : Nat.land k 7 = k mod 8).
  { change 7 with (Nat.ones 3). now rewrite Nat.land_ones. }
  rewrite Hland.
  pose proof (Nat.mod_upper_bound k 8 ltac:(discriminate)) as Hlt.
  set (m := k mod 8) in *.
  do 8 (destruct m as [|m]; [reflexivity|]). lia.
Qed.

Lemma aesenc_length (a : m128i) (k : nat) :
  length (_mm_aesenc_si128 a (nth (Nat.land k 7) HARAKA_RC [])) = 16.
Proof.
  unfold _mm_aesenc_si128, _mm_xor_si128.
  rewrite xor_bytes_length, round_constant_length. reflexivity.
Qed.

Lemma aes_round_lanes s i : lanes16 (aes_round s i).
Proof.
  destruct s as [[[s0 s1] s2] s3]. unfold aes_round.
  destruct (negb (Nat.land i 1 =? 0)); cbn [lanes16];
    repeat split; apply aesenc_length.
Qed.

Lemma haraka512_aes_ni_length (input : list Z) :
  length input = VERUS_BLOCKSIZE -> length (haraka512_aes_ni input) = 32.
Proof.
  intros Hlen. unfold haraka512_aes_ni.
  change (seq 0 VERUS_ROUNDS) with (seq 0 7 ++ [7]).
  rewrite fold_left_app. cbn [fold_left].
  set (s := fold_left aes_round (seq 0 7) _).
  pose proof (aes_round_lanes s 7) as Hl.
  destruct (aes_round s 7) as [[[s0 s1] s2] s3].
  destruct Hl as (H0 & H1 & H2 & H3).
  unfold _mm_xor_si128. rewrite length_app, !xor_bytes_length, !load_lane_length;
    unfold VERUS_BLOCKSIZE in *; lia.
Qed.

Lemma haraka512_software_length (input : list Z) :
  length (haraka512_software input) = 32.
Proof. reflexivity. Qed.

(** The permutation maps a 64-byte block to 32 bytes on both paths. *)
Lemma haraka512_length (aes_ni : bool) (input : list Z) :
  length input = VERUS_BLOCKSIZE -> length (haraka512 aes_ni input) = 32.
Proof.
  intros Hlen. destruct aes_ni; cbn [haraka512].
  - now apply haraka512_aes_ni_length.
  - apply haraka512_software_length.
Qed.

Lemma xor_state_lanes (st : list m128i) (block : list Z) :
  state_wf st -> length block = VERUS_BLOCKSIZE ->
  state_wf (xor_state st block)
  /\ length (store_state (xor_state st block)) = VERUS_BLOCKSIZE.
Proof.
  intros [Hlen Hlanes] Hblock.
  destruct st as [|l0 [|l1 [|l2 [|l3 [|? ?]]]]]; try discriminate Hlen.
  inversion Hlanes as [|? ? H0 Hl1]; subst.
  inversion Hl1 as [|? ? H1 Hl2]; subst.
  inversion Hl2 as [|? ? H2 Hl3]; subst.
  inversion Hl3 as [|? ? H3 _]; subst.
  unfold xor_state. cbn [fold_left seq upd nth Nat.mul Nat.add].
  assert (Hx : forall l off, length l = 16 -> off + 16 <= 64 ->
                 length (_mm_xor_si128 l (_mm_load_si128 block off)) = 16).
  { intros l off Hl Hoff. unfold _mm_xor_si128.
    rewrite xor_bytes_length, load_lane_length; unfold VERUS_BLOCKSIZE in *; lia. }
  split.
  - split; [reflexivity|]. repeat constructor; apply Hx; assumption || lia.
  - rewrite store_state_lanes by (apply Hx; assumption || lia).
    rewrite !length_app, !Hx by (assumption || lia). reflexivity.
Qed.

Lemma store_state_length (st : list m128i) :
  state_wf st -> length (store_state st) = VERUS_BLOCKSIZE.
Proof.
  intros [Hlen Hlanes].
  destruct st as [|l0 [|l1 [|l2 [|l3 [|? ?]]]]]; try discriminate Hlen.
  inversion Hlanes as [|? ? H0 Hl1]; subst.
  inversion Hl1 as [|? ? H1 Hl2]; subst.
  inversion Hl2 as [|? ? H2 Hl3]; subst.
  inversion Hl3 as [|? ? H3 _]; subst.
  rewrite store_state_lanes by assumption.
  rewrite !length_app, H0, H1, H2, H3. reflexivity.
Qed.

Section SizeFacts.

Variable aes_ni : bool.

(** Absorbing a block keeps the state four lanes of 16 bytes. *)
Lemma absorb_block_wf (st : list m128i) (block : list Z) :
  state_wf st -> length block = VERUS_BLOCKSIZE ->
  state_wf (absorb_block aes_ni st block).
Proof.
  intros Hst Hblock.
  destruct (@xor_state_lanes st block Hst Hblock) as [[Hlen Hlanes] Hstore].
  unfold absorb_block.
  set (out := haraka512 aes_ni (store_state (xor_state st block))).
  assert (Hout : length out = 32) by (apply haraka512_length; exact Hstore).
  destruct (xor_state st block) as [|l0 [|l1 [|l2 [|l3 [|? ?]]]]]; try discriminate Hlen.
  inversion Hlanes as [|? ? H0 Hl1]; subst.
  inversion Hl1 as [|? ? H1 Hl2]; subst.
  cbn [upd]. split; [reflexivity|].
  constructor; [apply load_lane_length; lia|].
  constructor; [apply load_lane_length; lia|]. exact Hl2.
Qed.

Lemma absorb_blocks_wf (bs : list (list Z)) : forall st,
  state_wf st -> Forall full_block bs ->
  state_wf (fold_left (absorb_block aes_ni) bs st).
Proof.
  induction bs as [|b bs IH]; intros st Hst Hf; [exact Hst|].
  inversion Hf; subst. cbn [fold_left]. apply IH; [|assumption].
  now apply absorb_block_wf.
Qed.

(** The state of a context reached by [verushash_update] calls is four
    lanes of 16 bytes. *)
Lemma streaming_state_wf (chunks : list (list Z)) :
  state_wf (state (fold_left (verushash_update aes_ni) chunks verushash_create_context)).
Proof.
  destruct (@updates_spec aes_ni chunks _ create_context_wf)
    as (_ & bs & Hf & _ & Hst & _).
  rewrite Hst. apply absorb_blocks_wf; [apply initial_state_wf | exact Hf].
Qed.

(** The single-shot digest has 32 bytes. *)
Lemma verushash_hash_length (message : list Z) :
  length (verushash_hash aes_ni message) = 32.
Proof.
  destruct (message_decomposition message) as (Hd & Hf & Hl).
  pose proof (@absorb_blocks_wf (full_blocks message) initial_state initial_state_wf Hf) as Hwf.
  unfold verushash_hash.
  destruct (absorb_loop_exit aes_ni initial_state message) as [Hloop Hlt].
  rewrite Hloop.
  destruct (0 <? length (trailing message)).
  - apply haraka512_length. apply xor_state_lanes; [exact Hwf|].
    assert (Hpad : length (upd (memcpy (repeat 0%Z VERUS_BLOCKSIZE) 0 (trailing message))
                               (length (trailing message)) 128%Z) = VERUS_BLOCKSIZE).
    { rewrite upd_length, memcpy_front. list_len. unfold VERUS_BLOCKSIZE in *. lia. }
    unfold hash_padded_block. rewrite store64_last by exact Hpad.
    rewrite length_app, length_firstn, Hpad, le_bytes_length. reflexivity.
  - apply haraka512_length. now apply store_state_length.
Qed.

(** The streaming digest has 32 bytes. *)
Lemma streaming_length (chunks : list (list Z)) :
  length (streaming aes_ni chunks) = 32.
Proof.
  unfold streaming.
  destruct (@updates_spec aes_ni chunks _ create_context_wf) as (Hwf & _).
  pose proof (streaming_state_wf chunks) as Hst.
  set (ctx := fold_left (verushash_update aes_ni) chunks verushash_create_context) in *.
  pose proof (pending_length Hwf) as Hp.
  assert (Hbl : buffer_len ctx < VERUS_BLOCKSIZE) by apply Hwf.
  destruct (Nat.lt_ge_cases 55 (buffer_len ctx)) as [Hover|Hfits].
  - rewrite finalize_overflow by assumption. cbn [snd].
    apply haraka512_length. apply xor_state_lanes.
    + apply absorb_block_wf; [exact Hst|]. list_len. unfold VERUS_BLOCKSIZE in *. lia.
    + list_len. reflexivity.
  - rewrite finalize_fits by assumption. cbn [snd].
    apply haraka512_length. apply xor_state_lanes; [exact Hst|].
    apply spec_final_block_length. lia.
Qed.

End SizeFacts.

(* ================================================================== *)
(** * The statements of the specification, checked against the code *)

(** C7. Every non-final block is absorbed, in the single-shot loop and in
    [verushash_update] alike, by xoring the block lane-wise into the state,
    running the permutation on the result and overwriting lanes 0 and 1 only
    with its output; lanes 2 and 3 keep the xored pre-permutation values. *)
Theorem C7_absorption_overwrites_lanes_0_1
    (aes_ni : bool) (st : list m128i) (block rest chunk : list Z)
    (fuel : nat) (ctx : verushash_ctx) :
  state_wf st -> length block = VERUS_BLOCKSIZE ->
  ctx_wf ctx -> state ctx = st -> pending ctx ++ chunk = block ->
  absorb_loop aes_ni (S fuel) st (block ++ rest)
  = absorb_loop aes_ni fuel (spec_absorb aes_ni st block) rest
  /\ state (verushash_update aes_ni ctx chunk) = spec_absorb aes_ni st block
  /\ nth 2 (spec_absorb aes_ni st block) []
     = _mm_xor_si128 (nth 2 st []) (_mm_load_si128 block 32)
  /\ nth 3 (spec_absorb aes_ni st block) []
     = _mm_xor_si128 (nth 3 st []) (_mm_load_si128 block 48).
Proof.
  intros Hst Hblock Hctx Hstate Hchunk.
  split; [|split; [|split; reflexivity]].
  - cbn [absorb_loop]. rewrite length_app, Hblock.
    destruct (Nat.leb_spec VERUS_BLOCKSIZE (VERUS_BLOCKSIZE + length rest)); [|lia].
    rewrite (firstn_app_exact _ _ Hblock), (skipn_app_exact _ _ Hblock).
    now rewrite absorb_block_spec.
  - assert (Hmsg : pending ctx ++ chunk = concat [block] ++ []).
    { cbn [concat]. now rewrite !app_nil_r. }
    destruct (@update_spec aes_ni ctx chunk [block] [] Hctx) as (_ & Hs & _).
    + repeat constructor. exact Hblock.
    + unfold VERUS_BLOCKSIZE. simpl. lia.
    + exact Hmsg.
    + rewrite Hs, Hstate. cbn [fold_left]. now apply absorb_block_spec.
Qed.

Lemma C7_absorption_overwrites_lanes_0_1_witness :
  state_wf initial_state
  /\ length (repeat 0%Z 64) = VERUS_BLOCKSIZE
  /\ ctx_wf verushash_create_context
  /\ state (verushash_update false verushash_create_context (repeat 0%Z 64))
     = spec_absorb false initial_state (repeat 0%Z 64).
Proof.
  assert (Hst : state_wf initial_state).
  { split; [reflexivity | repeat constructor]. }
  assert (Hctx : ctx_wf verushash_create_context).
  { repeat split; first [reflexivity | vm_compute; lia | vm_compute; congruence]. }
  split; [exact Hst | split; [reflexivity | split; [exact Hctx|]]].
  exact (proj1 (proj2 (@C7_absorption_overwrites_lanes_0_1 false initial_state
           (repeat 0%Z 64) [] (repeat 0%Z 64) 0 verushash_create_context
           Hst eq_refl Hctx eq_refl eq_refl))).
Defined.

(** C10. After [verushash_create_context] and any sequence of
    [verushash_update] calls, the number of pending bytes lies in 0..63 and
    equals the total number of bytes supplied modulo 64. *)
Theorem C10_buffer_len_is_total_mod_64 (aes_ni : bool) (chunks : list (list Z)) :
  let ctx := fold_left (verushash_update aes_ni) chunks verushash_create_context in
  buffer_len ctx < VERUS_BLOCKSIZE
  /\ Z.of_nat (buffer_len ctx) = (total_len ctx mod 64)%Z.
Proof.
  cbv zeta.
  destruct (@updates_spec aes_ni chunks _ create_context_wf)
    as (Hwf & bs & Hf & Hm & _ & Ht).
  split; [apply Hwf|].
  rewrite Ht. cbn [total_len verushash_create_context]. rewrite Z.add_0_l.
  cbn [pending verushash_create_context buffer_len firstn app] in Hm.
  rewrite Hm, length_app, (concat_blocks_length Hf), (pending_length Hwf).
  rewrite Z.mod_mod_divide by (exists (2 ^ 58)%Z; reflexivity).
  rewrite Nat2Z.inj_add, Nat2Z.inj_mul. change (Z.of_nat VERUS_BLOCKSIZE) with 64%Z.
  rewrite Z.add_comm, Z.mul_comm, Z.mod_add by lia.
  symmetry. apply Z.mod_small. destruct Hwf as (_ & Hbl & _).
  unfold VERUS_BLOCKSIZE in Hbl. lia.
Qed.

(** ** Single-shot hashing *)

Section HashFacts.

Variable aes_ni : bool.

(** [verushash_hash] on a message with no trailing bytes: no padded block
    is built (the [else] branch, lines 225-234). *)
Lemma hash_no_trailing bs :
  Forall full_block bs ->
  verushash_hash aes_ni (concat bs)
  = haraka512 aes_ni (store_state (fold_left (absorb_block aes_ni) bs initial_state)).
Proof.
  intros Hf. unfold verushash_hash.
  rewrite <- (app_nil_r (concat bs)) at 2.
  rewrite absorb_loop_blocks; [reflexivity | exact Hf | unfold VERUS_BLOCKSIZE; simpl; lia |].
  rewrite (concat_blocks_length Hf). unfold VERUS_BLOCKSIZE. lia.
Qed.

(** [verushash_hash] on a message with 1 to 63 trailing bytes. *)
Lemma hash_trailing bs tail :
  Forall full_block bs -> 0 < length tail < VERUS_BLOCKSIZE ->
  verushash_hash aes_ni (concat bs ++ tail)
  = haraka512 aes_ni
      (store_state
         (xor_state (fold_left (absorb_block aes_ni) bs initial_state)
            (hash_padded_block tail (Z.of_nat (length (concat bs ++ tail)))))).
Proof.
  intros Hf [Hpos Hlt]. unfold verushash_hash.
  rewrite absorb_loop_blocks; [| exact Hf | exact Hlt |].
  - destruct (Nat.ltb_spec 0 (length tail)); [reflexivity | lia].
  - rewrite length_app, (concat_blocks_length Hf). unfold VERUS_BLOCKSIZE. lia.
Qed.

(** With 56 to 63 trailing bytes the length field is written over the
    marker and over the trailing bytes from offset 56 on, so the digest does
    not depend on those bytes. *)
Lemma hash_trailing_bytes_overwritten bs tail tail' :
  Forall full_block bs ->
  56 <= length tail < VERUS_BLOCKSIZE -> length tail' = length tail ->
  firstn 56 tail' = firstn 56 tail ->
  verushash_hash aes_ni (concat bs ++ tail') = verushash_hash aes_ni (concat bs ++ tail).
Proof.
  intros Hf Hlen Hlen' Hpre.
  rewrite !hash_trailing by (try assumption; lia).
  rewrite !hash_padded_block_overwritten by lia.
  now rewrite !length_app, Hlen', Hpre.
Qed.

End HashFacts.

(** The 32-bit product [input_len * 8] is the bit count below 2^29 bytes. *)
Lemma bit_count_32 (n : Z) :
  (0 <= n < 2 ^ 29)%Z -> ((n * 8) mod 2 ^ 32 = n * 8)%Z.
Proof. intros H. apply Z.mod_small. lia. Qed.

(** Where the padding fits, the final block is the one of the
    specification: a message that leaves 1 to 55 trailing bytes and is
    shorter than 2^29 bytes is hashed by absorbing the trailing bytes, the
    marker, zeros up to offset 56 and the bit count, the output of one more
    permutation being the digest.  A message whose length is a multiple of
    64 gets no padded block: the digest is the permutation of the current
    state. *)
Lemma hash_final_block_when_padding_fits (aes_ni : bool) (message : list Z) :
  length message mod VERUS_BLOCKSIZE <= 55 ->
  length message mod VERUS_BLOCKSIZE = 0 \/ (Z.of_nat (length message) < 2 ^ 29)%Z ->
  verushash_hash aes_ni message
  = if length message mod VERUS_BLOCKSIZE =? 0
    then haraka512 aes_ni
           (store_state
              (fold_left (absorb_block aes_ni) (full_blocks message) initial_state))
    else spec_hash aes_ni message.
Proof.
  intros Hfit Hlen.
  destruct (message_decomposition message) as (Hd & Hf & Hl).
  destruct (Nat.eqb_spec (length message mod VERUS_BLOCKSIZE) 0) as [Hz|Hnz].
  - assert (Hnil : trailing message = []).
    { rewrite Hz in Hl. destruct (trailing message); [reflexivity | discriminate Hl]. }
    rewrite Hnil, app_nil_r in Hd. rewrite Hd at 1. now apply hash_no_trailing.
  - destruct Hlen as [Hz|Hlen]; [contradiction|].
    rewrite Hd at 1. rewrite hash_trailing;
      [| exact Hf | rewrite Hl; unfold VERUS_BLOCKSIZE in *; lia].
    rewrite <- Hd. unfold spec_hash.
    rewrite hash_padded_block_fits by (rewrite Hl; exact Hfit).
    rewrite bit_count_32 by lia. reflexivity.
Qed.
(** C3 fails on the code.  On the empty message and on a message of exactly
    one block [verushash_hash] builds no padded block and its digest is not
    the one obtained from the final block of the claim, which is what
    [verushash_finalize] produces there.  With 56 trailing bytes the block
    that is absorbed holds the trailing bytes and the length field but no
    marker, and with 57 trailing bytes two messages that differ in their
    last byte have the same digest.  All of it on both permutation paths. *)
Theorem C3_single_shot_padding_defects (aes_ni : bool) :
  verushash_hash aes_ni [] <> spec_hash aes_ni []
  /\ spec_hash aes_ni [] = streaming aes_ni []
  /\ verushash_hash aes_ni (repeat 7%Z 64) <> spec_hash aes_ni (repeat 7%Z 64)
  /\ spec_hash aes_ni (repeat 7%Z 64) = streaming aes_ni [repeat 7%Z 64]
  /\ hash_padded_block (repeat 7%Z 56) 56 = repeat 7%Z 56 ++ le_bytes 8 (56 * 8)
  /\ verushash_hash aes_ni (repeat 7%Z 56 ++ [1%Z])
     = verushash_hash aes_ni (repeat 7%Z 56 ++ [2%Z]).
Proof.
  assert (Hblock : hash_padded_block (repeat 7%Z 56) 56
                   = repeat 7%Z 56 ++ le_bytes 8 (56 * 8)) by reflexivity.
  assert (Hsame : verushash_hash aes_ni (repeat 7%Z 56 ++ [1%Z])
                  = verushash_hash aes_ni (repeat 7%Z 56 ++ [2%Z])).
  { apply (@hash_trailing_bytes_overwritten aes_ni [] (repeat 7%Z 56 ++ [2%Z])
             (repeat 7%Z 56 ++ [1%Z]) (Forall_nil _)).
    - vm_compute. lia.
    - reflexivity.
    - reflexivity. }
  destruct aes_ni;
    (split; [vm_compute; discriminate|]);
    (split; [vm_compute; reflexivity|]);
    (split; [vm_compute; discriminate|]);
    (split; [vm_compute; reflexivity|]);
    (split; [exact Hblock | exact Hsame]).
Qed.

(** ** Finalization *)

(** C4 (amended). With more than 55 pending bytes, [verushash_finalize]
    places the marker right after them, zero-fills that block to 64 bytes and
    absorbs it as a full block; the final block is then zero up to offset 56
    and carries the 64-bit bit count only.  With at most 55 pending bytes the
    marker, the zero fill and the bit count go into one final block, as the
    specification says.  In both cases the final block is xored into the
    state and the output of the permutation is returned as the digest. *)
Theorem C4_finalize_padding (aes_ni : bool) (ctx : verushash_ctx) :
  ctx_wf ctx ->
  snd (verushash_finalize aes_ni ctx)
  = if 55 <? buffer_len ctx then
      let marked := pending ctx ++ [0x80%Z] ++ repeat 0%Z (63 - buffer_len ctx) in
      let final := repeat 0%Z 56 ++ le_bytes 8 (total_len ctx * 8)%Z in
      haraka512 aes_ni
        (store_state (xor_state (absorb_block aes_ni (state ctx) marked) final))
    else spec_finalize aes_ni ctx.
Proof.
  intros Hwf. unfold spec_finalize.
  destruct (Nat.ltb_spec 55 (buffer_len ctx)) as [Hover|Hfits].
  - now rewrite finalize_overflow.
  - now rewrite finalize_fits.
Qed.

Lemma C4_finalize_padding_witness :
  ctx_wf verushash_create_context
  /\ snd (verushash_finalize true verushash_create_context)
     = spec_finalize true verushash_create_context.
Proof.
  assert (Hctx : ctx_wf verushash_create_context).
  { repeat split; first [reflexivity | vm_compute; lia | vm_compute; congruence]. }
  split; [exact Hctx|].
  exact (@C4_finalize_padding true verushash_create_context Hctx).
Defined.

(** C4, as stated, fails with 56 pending bytes: the marker is absorbed with
    the pending bytes and the block that carries the length has no marker. *)
Lemma C4_counterexample :
  let ctx := verushash_update false verushash_create_context (repeat 0%Z 56) in
  buffer_len ctx = 56
  /\ snd (verushash_finalize false ctx) <> spec_finalize false ctx
  /\ snd (verushash_finalize true ctx) <> spec_finalize true ctx.
Proof.
  cbv zeta. split; [reflexivity|]. split; vm_compute; discriminate.
Qed.

(** C9 (amended). [verushash_finalize] zeroes nothing: the byte count is
    unchanged, the buffer holds the final padded block, the count of
    buffered bytes is that of the bytes up to the marker (0 after an
    overflow block), and the state holds the state before the last
    permutation xored with that block. *)
Theorem C9_context_after_finalize (aes_ni : bool) (ctx : verushash_ctx) :
  ctx_wf ctx ->
  let ctx' := fst (verushash_finalize aes_ni ctx) in
  let marked := pending ctx ++ [0x80%Z] ++ repeat 0%Z (63 - buffer_len ctx) in
  total_len ctx' = total_len ctx
  /\ buffer ctx'
     = (if 55 <? buffer_len ctx
        then repeat 0%Z 56 ++ le_bytes 8 (total_len ctx * 8)%Z
        else spec_final_block (pending ctx) (total_len ctx))
  /\ buffer_len ctx' = (if 55 <? buffer_len ctx then 0 else buffer_len ctx + 1)
  /\ state ctx'
     = xor_state (if 55 <? buffer_len ctx
                  then absorb_block aes_ni (state ctx) marked
                  else state ctx)
                 (buffer ctx').
Proof.
  intros Hwf. cbv zeta.
  destruct (Nat.ltb_spec 55 (buffer_len ctx)) as [Hover|Hfits].
  - rewrite finalize_overflow by assumption. repeat split.
  - rewrite finalize_fits by assumption. repeat split.
Qed.

Lemma C9_context_after_finalize_witness :
  ctx_wf verushash_create_context
  /\ buffer (fst (verushash_finalize false verushash_create_context))
     = spec_final_block [] 0.
Proof.
  assert (Hctx : ctx_wf verushash_create_context).
  { repeat split; first [reflexivity | vm_compute; lia | vm_compute; congruence]. }
  split; [exact Hctx|].
  exact (proj1 (proj2 (@C9_context_after_finalize false verushash_create_context Hctx))).
Defined.

(** C9, as stated, fails already on a fresh context: after
    [verushash_finalize] the buffer starts with the marker, the count of
    buffered bytes is 1 and the state is the initial state xored with the
    final block. *)
Lemma C9_counterexample :
  let ctx' := fst (verushash_finalize false verushash_create_context) in
  ctx' <> zeroed_ctx
  /\ nth 0 (buffer ctx') 0%Z = 0x80%Z
  /\ buffer_len ctx' = 1
  /\ state ctx' <> state zeroed_ctx.
Proof.
  cbv zeta. repeat split; try (vm_compute; discriminate).
Qed.

(** ** Streaming against single-shot hashing *)

(** Where both paths pad in one block, they agree: for every partition of a
    message that leaves 1 to 55 trailing bytes and is shorter than 2^29
    bytes, the streaming digest (of update calls that return) is the
    single-shot digest. *)
Theorem streaming_eq_hash_when_padding_fits (aes_ni : bool) (chunks : list (list Z)) :
  1 <= length (concat chunks) mod VERUS_BLOCKSIZE <= 55 ->
  (Z.of_nat (length (concat chunks)) < 2 ^ 29)%Z ->
  streaming aes_ni chunks = verushash_hash aes_ni (concat chunks).
Proof.
  intros Hmod Hlen. unfold streaming.
  destruct (@updates_spec aes_ni chunks _ create_context_wf)
    as (Hwf & bs & Hf & Hm & Hst & Ht).
  set (ctx := fold_left (verushash_update aes_ni) chunks verushash_create_context) in *.
  cbn [pending verushash_create_context buffer_len firstn app state total_len] in Hm, Hst, Ht.
  rewrite Z.add_0_l in Ht.
  pose proof (pending_length Hwf) as Hp.
  assert (Hbl : buffer_len ctx = length (concat chunks) mod VERUS_BLOCKSIZE).
  { rewrite Hm, length_app, (concat_blocks_length Hf), Hp.
    rewrite Nat.add_comm, Nat.mul_comm, Nat.Div0.mod_add.
    symmetry. apply Nat.mod_small. apply Hwf. }
  rewrite finalize_fits by (try assumption; lia). cbn [snd].
  rewrite Hm. rewrite hash_trailing; [| exact Hf | rewrite Hp; unfold VERUS_BLOCKSIZE in *; lia].
  rewrite <- Hm, hash_padded_block_fits by lia.
  rewrite bit_count_32 by lia.
  rewrite Hst, Ht, Z.mod_small by lia. reflexivity.
Qed.

Lemma streaming_eq_hash_when_padding_fits_witness :
  streaming true [[1%Z; 2%Z]; []; [3%Z]] = verushash_hash true [1%Z; 2%Z; 3%Z].
Proof.
  apply (@streaming_eq_hash_when_padding_fits true [[1%Z; 2%Z]; []; [3%Z]]).
  - vm_compute. lia.
  - reflexivity.
Defined.

(** C1 fails on the code.  A 64-byte message supplied as one chunk, a 56-byte
    message supplied as chunks of 7 and 49 bytes, and the empty message with
    no chunk at all each get a streaming digest that differs from the
    single-shot digest, on both permutation paths. *)
Theorem C1_streaming_differs_from_single_shot (aes_ni : bool) :
  streaming aes_ni [repeat 0%Z 64] <> verushash_hash aes_ni (repeat 0%Z 64)
  /\ streaming aes_ni [repeat 1%Z 7; repeat 2%Z 49]
     <> verushash_hash aes_ni (repeat 1%Z 7 ++ repeat 2%Z 49)
  /\ streaming aes_ni [] <> verushash_hash aes_ni [].
Proof.
  destruct aes_ni; repeat split; vm_compute; discriminate.
Qed.

(** C6 fails on the code.  The single-shot digest of the empty message is the
    permutation of the initial state; a fresh context that is finalized at
    once absorbs a padded block first, and the two digests differ on both
    permutation paths. *)
Theorem C6_empty_message_digests_differ (aes_ni : bool) :
  verushash_hash aes_ni [] = haraka512 aes_ni (store_state initial_state)
  /\ snd (verushash_finalize aes_ni verushash_create_context)
     = haraka512 aes_ni
         (store_state (xor_state initial_state (spec_final_block [] 0)))
  /\ verushash_hash aes_ni []
     <> snd (verushash_finalize aes_ni verushash_create_context).
Proof.
  split; [reflexivity|]. split; [reflexivity|].
  destruct aes_ni; vm_compute; discriminate.
Qed.

(** ** The length field *)

(** The streaming path writes the bit count as a 64-bit product. *)
Lemma finalize_length_field (aes_ni : bool) (ctx : verushash_ctx) :
  ctx_wf ctx ->
  skipn 56 (buffer (fst (verushash_finalize aes_ni ctx)))
  = le_bytes 8 ((total_len ctx * 8) mod 2 ^ 64)%Z.
Proof.
  intros Hwf. rewrite le_bytes_8_mod.
  destruct (Nat.lt_ge_cases 55 (buffer_len ctx)) as [Hover|Hfits].
  - rewrite finalize_overflow by assumption. cbn [fst buffer].
    apply skipn_app_exact. apply repeat_length.
  - rewrite finalize_fits by assumption. cbn [fst buffer]. unfold spec_final_block.
    rewrite !app_assoc. apply skipn_app_exact.
    list_len. rewrite (pending_length Hwf). lia.
Qed.

(** The single-shot path writes the bit count as a 32-bit product. *)
Lemma hash_length_field (tail : list Z) (input_len : Z) :
  0 < length tail < VERUS_BLOCKSIZE ->
  skipn 56 (hash_padded_block tail input_len)
  = le_bytes 8 ((input_len * 8) mod 2 ^ 32)%Z.
Proof.
  intros [Hpos Hlt].
  destruct (Nat.lt_ge_cases 55 (length tail)) as [Hover|Hfits].
  - rewrite hash_padded_block_overwritten by lia.
    apply skipn_app_exact. rewrite length_firstn. lia.
  - rewrite hash_padded_block_fits by lia.
    rewrite !app_assoc. apply skipn_app_exact. list_len. lia.
Qed.

(** C5 fails on the code in the single-shot path.  For a message of
    2^29 + 1 bytes, which leaves one trailing byte, the last 8 bytes of the
    padded block encode 8, the product [input_len * 8] wrapped to 32 bits,
    and not the 64-bit bit count 2^32 + 8. *)
Theorem C5_single_shot_length_field_wraps :
  skipn 56 (hash_padded_block [0x61%Z] 536870913) = [8; 0; 0; 0; 0; 0; 0; 0]%Z
  /\ le_bytes 8 ((536870913 * 8) mod 2 ^ 64)%Z = [8; 0; 0; 0; 1; 0; 0; 0]%Z.
Proof.
  split; reflexivity.
Qed.

(** ** The two permutation paths *)

(** C2 fails on the code.  On the all-zero block the software path returns
    32 zero bytes and the hardware path does not. *)
Theorem C2_paths_differ_on_zero_block :
  haraka512_software (repeat 0%Z 64) = repeat 0%Z 32
  /\ haraka512_aes_ni (repeat 0%Z 64)
     = [251; 212; 90; 131; 94; 156; 152; 179; 129; 159; 234; 6; 82; 58; 176; 122;
        225; 92; 229; 165; 205; 55; 233; 66; 15; 187; 182; 193; 40; 136; 223; 28]%Z
  /\ haraka512 true (repeat 0%Z 64) <> haraka512 false (repeat 0%Z 64).
Proof.
  repeat split; vm_compute; try reflexivity; discriminate.
Qed.

(** ** The software round *)

(** [rotl32] is the rotation of a 32-bit word: bit [i] of the result is bit
    [i - n] (modulo 32) of the argument. *)
Lemma rotl32_spec (x n i : Z) :
  (0 <= x < 2 ^ 32)%Z -> (0 < n < 32)%Z -> (0 <= i < 32)%Z ->
  Z.testbit (rotl32 x n) i = Z.testbit x ((i - n) mod 32).
Proof.
  intros Hx Hn Hi. unfold rotl32.
  rewrite Z.lor_spec, Z.mod_pow2_bits_low, Z.shiftl_spec, Z.shiftr_spec by lia.
  destruct (Z.lt_ge_cases i n) as [Hlt|Hge].
  - rewrite (Z.testbit_neg_r x (i - n)) by lia. cbn [orb]. f_equal.
    apply Z.mod_unique with (q := (-1)%Z); lia.
  - replace (Z.testbit x (i + (32 - n))) with false.
    + rewrite orb_false_r. f_equal. symmetry. apply Z.mod_small. lia.
    + rewrite <- (Z.mod_small x (2 ^ 32)) by lia.
      symmetry. apply Z.mod_pow2_bits_high. lia.
Qed.

Lemma rotr32_spec (x n i : Z) :
  (0 <= x < 2 ^ 32)%Z -> (0 < n < 32)%Z -> (0 <= i < 32)%Z ->
  Z.testbit (rotr32 x n) i = Z.testbit x ((i + n) mod 32).
Proof.
  intros Hx Hn Hi. unfold rotr32. rewrite rotl32_spec by lia. f_equal.
  replace (i - (32 - n))%Z with (i + n + (-1) * 32)%Z by lia.
  apply Z.mod_add. lia.
Qed.

(** The body of the word loop, in terms of rotations. *)
Lemma sw_mix_word_rotations (x : Z) (i : nat) :
  sw_mix_word x i
  = (let y := Z.lxor x (rotl32 x 13) in
     (Z.lxor y (rotr32 y 17) + HARAKA_RC_word (i mod 8)) mod 2 ^ 32)%Z.
Proof.
  unfold sw_mix_word, rotr32, rotl32. cbv zeta.
  change (32 - 13)%Z with 19%Z. change (32 - 17)%Z with 15%Z.
  change (32 - 15)%Z with 17%Z.
  now rewrite (Z.lor_comm (Z.shiftr _ 17)).
Qed.

Lemma round_is_odd (round : nat) : negb (Nat.land round 1 =? 0) = Nat.odd round.
Proof.
  change 1 with (Nat.ones 1) at 1. rewrite Nat.land_ones. change (2 ^ 1) with 2.
  rewrite <- Nat.bit0_mod. rewrite Nat.bit0_odd.
  now destruct (Nat.odd round).
Qed.

(** A software round in closed form: the word-wise step, followed on odd
    rounds by the rotation of the sixteen words by one word. *)
Lemma sw_round_closed (ws : list Z) (round : nat) :
  length ws = 16 ->
  sw_round ws round = if Nat.odd round then word_rotate (sw_mix ws) else sw_mix ws.
Proof.
  intros Hlen. unfold sw_round. rewrite round_is_odd.
  explode ws Hlen.
  destruct (Nat.odd round); reflexivity.
Qed.

Lemma sw_mix_length (ws : list Z) : length (sw_mix ws) = 16.
Proof. reflexivity. Qed.

Lemma word_rotate_length (ws : list Z) : length (word_rotate ws) = length ws.
Proof.
  unfold word_rotate. rewrite length_app, length_skipn, length_firstn.
  destruct ws; simpl; lia.
Qed.

(** C8 (amended). In each of the 8 software rounds every one of the sixteen
    words [x] becomes [y xor rotr(y, 17)] plus the round-constant word
    [i mod 8], where [y = x xor rotl(x, 13)]; on every odd round the sixteen
    words are then rotated cyclically by one word (word [i] takes the value
    of word [i + 1]), which is not the rotation of whole lanes of the
    hardware path. *)
Theorem C8_software_round (ws : list Z) (round : nat) (i : nat) :
  length ws = 16 -> i < 16 ->
  sw_round ws round = (if Nat.odd round then word_rotate (sw_mix ws) else sw_mix ws)
  /\ nth i (sw_round ws round) 0%Z
     = (let j := if Nat.odd round then (i + 1) mod 16 else i in
        let x := nth j ws 0%Z in
        let y := Z.lxor x (rotl32 x 13) in
        ((Z.lxor y (rotr32 y 17) + HARAKA_RC_word (j mod 8)) mod 2 ^ 32)%Z)
  /\ fold_left sw_round (seq 0 VERUS_ROUNDS) ws
     = Nat.iter 4 (fun w => word_rotate (sw_mix (sw_mix w))) ws.
Proof.
  intros Hlen Hi. split; [now apply sw_round_closed|]. split.
  - rewrite sw_round_closed by assumption. cbv zeta.
    rewrite <- sw_mix_word_rotations.
    explode ws Hlen.
    destruct (Nat.odd round);
      do 16 (destruct i as [|i]; [reflexivity|]); lia.
  - cbn [VERUS_ROUNDS seq fold_left Nat.iter].
    repeat (rewrite ?sw_round_closed;
            rewrite ?word_rotate_length, ?sw_mix_length; try reflexivity; try assumption).
Qed.

Lemma C8_software_round_witness :
  length (repeat 0%Z 16) = 16 /\ 0 < 16
  /\ sw_round (repeat 0%Z 16) 1 = word_rotate (sw_mix (repeat 0%Z 16)).
Proof.
  split; [reflexivity | split; [lia|]].
  exact (proj1 (@C8_software_round (repeat 0%Z 16) 1 0 eq_refl (Nat.lt_0_succ 15))).
Defined.

(** The lane rotation of the hardware path on odd rounds. *)
Lemma aes_round_odd (s0 s1 s2 s3 : m128i) (i : nat) :
  Nat.odd i = true ->
  aes_round (s0, s1, s2, s3) i
  = (_mm_aesenc_si128 s1 (nth (Nat.land (i + 1) 7) HARAKA_RC []),
     _mm_aesenc_si128 s2 (nth (Nat.land (i + 2) 7) HARAKA_RC []),
     _mm_aesenc_si128 s3 (nth (Nat.land (i + 3) 7) HARAKA_RC []),
     _mm_aesenc_si128 s0 (nth (Nat.land i 7) HARAKA_RC [])).
Proof.
  intros Hodd. unfold aes_round. now rewrite round_is_odd, Hodd.
Qed.

(** C8, as stated, fails on round 1 from the all-zero state: the code moves
    word 1 to position 0, a lane rotation would move word 4 there.  The word
    step is not a composition of the two rotations either: on the word 1 it
    differs from "rotate left by 13, rotate right by 17, add the constant". *)
Lemma C8_counterexample :
  sw_round (repeat 0%Z 16) 1 <> spec_sw_round (repeat 0%Z 16) 1
  /\ nth 0 (sw_round (repeat 0%Z 16) 1) 0%Z = HARAKA_RC_word 1
  /\ nth 0 (spec_sw_round (repeat 0%Z 16) 1) 0%Z = HARAKA_RC_word 4
  /\ sw_mix_word 1 0
     <> ((rotr32 (rotl32 1 13) 17 + HARAKA_RC_word 0) mod 2 ^ 32)%Z.
Proof.
  repeat split; vm_compute; discriminate.
Qed.

(* ================================================================== *)
(** * Further properties of the sponge engine and the permutation core *)

(** ** Uniqueness of the block decomposition *)

Lemma decomposition_unique (bs bs' : list (list Z)) : forall (p p' : list Z),
  Forall full_block bs -> Forall full_block bs' ->
  length p < VERUS_BLOCKSIZE -> length p' < VERUS_BLOCKSIZE ->
  concat bs ++ p = concat bs' ++ p' -> bs = bs' /\ p = p'.
Proof.
  revert bs'. induction bs as [|b bs IH]; intros bs' p p' Hf Hf' Hp Hp' Heq.
  - destruct bs' as [|b' bs']; [now split|exfalso].
    inversion Hf' as [|? ? Hb' _]; subst. cbn [concat app] in Heq.
    apply (f_equal (@length Z)) in Heq. rewrite !length_app, Hb' in Heq. lia.
  - inversion Hf as [|? ? Hb Hbs]; subst.
    destruct bs' as [|b' bs'].
    + exfalso. cbn [concat app] in Heq.
      apply (f_equal (@length Z)) in Heq. rewrite !length_app, Hb in Heq. lia.
    + inversion Hf' as [|? ? Hb' Hbs']; subst.
      cbn [concat] in Heq. rewrite <- !app_assoc in Heq.
      assert (Hbb : b = b').
      { apply (f_equal (firstn VERUS_BLOCKSIZE)) in Heq.
        now rewrite (firstn_app_exact _ _ Hb), (firstn_app_exact _ _ Hb') in Heq. }
      subst b'. apply app_inv_head in Heq.
      destruct (IH bs' p p' Hbs Hbs' Hp Hp' Heq) as [-> ->]. now split.
Qed.

(** The context reached by a sequence of updates, in terms of the
    concatenated chunks. *)
Lemma updates_characterisation (aes_ni : bool) (chunks : list (list Z)) :
  let ctx := fold_left (verushash_update aes_ni) chunks verushash_create_context in
  state ctx
  = fold_left (absorb_block aes_ni) (full_blocks (concat chunks)) initial_state
  /\ pending ctx = trailing (concat chunks)
  /\ length (buffer ctx) = VERUS_BLOCKSIZE
  /\ total_len ctx = (Z.of_nat (length (concat chunks)) mod 2 ^ 64)%Z.
Proof.
  cbv zeta.
  destruct (@updates_spec aes_ni chunks _ create_context_wf)
    as (Hwf & bs & Hf & Hm & Hst & Ht).
  cbn [pending verushash_create_context buffer_len firstn app state total_len] in Hm, Hst, Ht.
  destruct (message_decomposition (concat chunks)) as (Hd & Hf' & Hl).
  assert (Hlt : length (trailing (concat chunks)) < VERUS_BLOCKSIZE).
  { rewrite Hl. apply Nat.mod_upper_bound. discriminate. }
  assert (Hp : length (pending (fold_left (verushash_update aes_ni) chunks
                                  verushash_create_context)) < VERUS_BLOCKSIZE).
  { rewrite (pending_length Hwf). apply Hwf. }
  rewrite Hm in Hd at 1.
  destruct (@decomposition_unique _ _ _ _ Hf Hf' Hp Hlt Hd) as [Hbs Hpend].
  repeat split.
  - now rewrite Hst, Hbs.
  - exact Hpend.
  - apply Hwf.
  - rewrite Ht. now rewrite Z.add_0_l.
Qed.

(** X1. After [verushash_create_context] and any sequence of
    [verushash_update] calls, the state is the initial state after absorbing
    the complete 64-byte blocks of the concatenated chunks, the pending
    bytes are the bytes that follow the last complete block, their number is
    the total length modulo 64, and [total_len] is the number of bytes
    supplied modulo 2^64. *)
Theorem X1_context_after_updates (aes_ni : bool) (chunks : list (list Z)) :
  let ctx := fold_left (verushash_update aes_ni) chunks verushash_create_context in
  state ctx
  = fold_left (absorb_block aes_ni) (full_blocks (concat chunks)) initial_state
  /\ firstn (buffer_len ctx) (buffer ctx) = trailing (concat chunks)
  /\ buffer_len ctx = length (concat chunks) mod VERUS_BLOCKSIZE
  /\ total_len ctx = (Z.of_nat (length (concat chunks)) mod 2 ^ 64)%Z.
Proof.
  cbv zeta.
  destruct (@updates_spec aes_ni chunks _ create_context_wf) as (Hwf & _).
  destruct (updates_characterisation aes_ni chunks) as (Hst & Hp & _ & Ht).
  destruct (message_decomposition (concat chunks)) as (_ & _ & Hl).
  repeat split; try assumption.
  rewrite <- Hl, <- Hp. symmetry. now apply pending_length.
Qed.

(** The digest written by [verushash_finalize] depends on the state, the
    pending bytes and the byte count only (not on stale buffer bytes). *)
Lemma finalize_digest_ext (aes_ni : bool) (c c' : verushash_ctx) :
  ctx_wf c -> ctx_wf c' ->
  state c = state c' -> pending c = pending c' -> total_len c = total_len c' ->
  snd (verushash_finalize aes_ni c) = snd (verushash_finalize aes_ni c').
Proof.
  intros Hwf Hwf' Hst Hp Ht.
  assert (Hbl : buffer_len c = buffer_len c').
  { rewrite <- (pending_length Hwf), <- (pending_length Hwf'). congruence. }
  destruct (Nat.lt_ge_cases 55 (buffer_len c)) as [Hover|Hfits].
  - rewrite !finalize_overflow by (try assumption; lia). cbn [snd].
    now rewrite Hst, Hp, Ht, Hbl.
  - rewrite !finalize_fits by (try assumption; lia). cbn [snd].
    now rewrite Hst, Hp, Ht.
Qed.

(** ** The address of a chunk *)

Lemma aligned16_add_lanes (p : Z) (k : nat) :
  aligned16 (p + Z.of_nat (k * 16)) = aligned16 p.
Proof.
  unfold aligned16. rewrite Nat2Z.inj_mul. change (Z.of_nat 16) with 16%Z.
  now rewrite Z.mod_add.
Qed.

Lemma aligned16_block_loads (p : Z) :
  forallb (fun i => aligned16 (p + Z.of_nat (i * 16))) (seq 0 4) = aligned16 p.
Proof.
  cbn [seq forallb]. rewrite !aligned16_add_lanes.
  destruct (aligned16 p); reflexivity.
Qed.

Lemma aligned16_next_block (p : Z) :
  aligned16 (p + Z.of_nat VERUS_BLOCKSIZE) = aligned16 p.
Proof.
  unfold aligned16. change (Z.of_nat VERUS_BLOCKSIZE) with (4 * 16)%Z.
  now rewrite Z.mod_add.
Qed.

(** The loop with addresses: it faults exactly when it loads a block and the
    address of the data is not a multiple of 16; otherwise it computes what
    [absorb_loop] computes. *)
Lemma absorb_loop_at_spec (aes_ni : bool) (fuel : nat) : forall st p data,
  absorb_loop_at aes_ni fuel st p data
  = if (0 <? fuel) && (VERUS_BLOCKSIZE <=? length data) && negb (aligned16 p)
    then None
    else Some (absorb_loop aes_ni fuel st data).
Proof.
  induction fuel as [|fuel IH]; intros st p data; [reflexivity|].
  cbn [absorb_loop_at absorb_loop]. rewrite aligned16_block_loads.
  change (0 <? S fuel) with true. cbn [andb].
  destruct (VERUS_BLOCKSIZE <=? length data) eqn:Hlen; [|reflexivity].
  cbn [andb]. destruct (aligned16 p) eqn:Hal; [|reflexivity].
  cbn [negb]. rewrite IH, aligned16_next_block, Hal. cbn [negb].
  now rewrite Bool.andb_false_r.
Qed.

Lemma absorb_loop_at_full_fuel (aes_ni : bool) st p data :
  absorb_loop_at aes_ni (length data) st p data
  = if (VERUS_BLOCKSIZE <=? length data) && negb (aligned16 p)
    then None
    else Some (absorb_loop aes_ni (length data) st data).
Proof.
  rewrite absorb_loop_at_spec.
  destruct (Nat.leb_spec VERUS_BLOCKSIZE (length data)) as [Hle|Hlt].
  - destruct (Nat.ltb_spec 0 (length data)) as [_|H0];
      [reflexivity | unfold VERUS_BLOCKSIZE in Hle; lia].
  - now rewrite Bool.andb_false_r.
Qed.

(** [verushash_update] with the address of the chunk: the call does not
    return exactly when it loads a block straight from [data] (at least 64
    bytes remain after the buffer was topped up) and the address of that
    block, [data + to_copy], is not a multiple of 16; when it returns, it
    leaves the context of [verushash_update]. *)
Lemma verushash_update_at_spec (aes_ni : bool) (ctx : verushash_ctx) (p : Z) (data : list Z) :
  p <> 0%Z ->
  let needed := VERUS_BLOCKSIZE - buffer_len ctx in
  let to_copy :=
    if 0 <? buffer_len ctx
    then (if length data <? needed then length data else needed)
    else 0 in
  verushash_update_at aes_ni ctx p data
  = if (VERUS_BLOCKSIZE <=? length data - to_copy)
       && negb (aligned16 (p + Z.of_nat to_copy))
    then None
    else Some (verushash_update aes_ni ctx data).
Proof.
  intros Hp. cbv zeta. unfold verushash_update_at, verushash_update.
  destruct (Z.eqb_spec p 0) as [Hz|_]; [contradiction|].
  destruct (0 <? buffer_len ctx).
  - set (to_copy := if length data <? VERUS_BLOCKSIZE - buffer_len ctx
                    then length data else VERUS_BLOCKSIZE - buffer_len ctx).
    destruct (buffer_len ctx + to_copy =? VERUS_BLOCKSIZE);
      rewrite absorb_loop_at_full_fuel, length_skipn;
      destruct ((VERUS_BLOCKSIZE <=? length data - to_copy)
                && negb (aligned16 (p + Z.of_nat to_copy))); try reflexivity;
      destruct (absorb_loop aes_ni _ _ _) as [st rest];
      destruct (0 <? length rest); reflexivity.
  - rewrite absorb_loop_at_full_fuel, Nat.sub_0_r, Z.add_0_r.
    destruct ((VERUS_BLOCKSIZE <=? length data) && negb (aligned16 p));
      try reflexivity.
    destruct (absorb_loop aes_ni _ _ _) as [st rest].
    destruct (0 <? length rest); reflexivity.
Qed.

Lemma verushash_update_at_some (aes_ni : bool) ctx p data c :
  p <> 0%Z -> verushash_update_at aes_ni ctx p data = Some c ->
  c = verushash_update aes_ni ctx data.
Proof.
  intros Hp H. rewrite (verushash_update_at_spec aes_ni ctx data Hp) in H.
  cbv zeta in H.
  destruct (_ && _) in H; [discriminate | now injection H].
Qed.


Lemma updates_at_some (aes_ni : bool) (chunks : list (Z * list Z)) : forall ctx c,
  Forall non_null chunks ->
  updates_at aes_ni ctx chunks = Some c ->
  c = fold_left (verushash_update aes_ni) (map snd chunks) ctx.
Proof.
  induction chunks as [|[p d] chunks IH]; intros ctx c Hnn H.
  - now injection H.
  - inversion Hnn as [|? ? Hp Hrest]; subst. cbn [updates_at] in H.
    destruct (verushash_update_at aes_ni ctx p d) as [c1|] eqn:E; [|discriminate].
    apply verushash_update_at_some in E; [|exact Hp]. subst c1.
    cbn [map snd fold_left]. now apply IH.
Qed.


Lemma streaming_at_some (aes_ni : bool) (chunks : list (Z * list Z)) (d : list Z) :
  Forall non_null chunks ->
  streaming_at aes_ni chunks = Some d -> d = streaming aes_ni (map snd chunks).
Proof.
  intros Hnn H. unfold streaming_at in H.
  destruct (updates_at aes_ni verushash_create_context chunks) as [c|] eqn:E;
    [|discriminate].
  apply updates_at_some in E; [|exact Hnn]. subst c. now injection H.
Qed.

(** X22. [verushash_update] on a non-null chunk has no defined result (the
    aligned load of line 306 meets a misaligned address) exactly when, after
    the buffer was topped up with [to_copy] bytes, at least 64 bytes remain,
    so that a block is loaded straight from the chunk, and the address of
    those bytes is not a multiple of 16; when it returns it leaves the
    context of [verushash_update]. *)
Theorem X22_update_returns_unless_misaligned
    (aes_ni : bool) (ctx : verushash_ctx) (p : Z) (data : list Z) :
  p <> 0%Z ->
  let needed := VERUS_BLOCKSIZE - buffer_len ctx in
  let to_copy :=
    if 0 <? buffer_len ctx
    then (if length data <? needed then length data else needed)
    else 0 in
  (verushash_update_at aes_ni ctx p data = None
   <-> VERUS_BLOCKSIZE <= length data - to_copy
       /\ ((p + Z.of_nat to_copy) mod 16 <> 0)%Z)
  /\ (forall c, verushash_update_at aes_ni ctx p data = Some c ->
                c = verushash_update aes_ni ctx data).
Proof.
  intros Hp. cbv zeta. split.
  - rewrite (verushash_update_at_spec aes_ni ctx data Hp). cbv zeta.
    unfold aligned16.
    match goal with |- context [?n <=? ?m] =>
      destruct (Nat.leb_spec n m) as [Hle|Hlt] end;
    match goal with |- context [(?x =? 0)%Z] =>
      destruct (Z.eqb_spec x 0) as [Hal|Hmis] end; cbn [andb negb];
    split; try discriminate; try (intros [? ?]; first [lia | contradiction]);
    try reflexivity.
    + intros _. now split.
  - intros c H. now apply verushash_update_at_some in H.
Qed.

(** A context holding 60 pending bytes is given 70 bytes at the aligned
    address 4096: the block after the 4 bytes that fill the buffer is at
    4100, and the call does not return. *)
Lemma X22_update_returns_unless_misaligned_witness :
  let ctx := verushash_update false verushash_create_context (repeat 1%Z 60) in
  (4096 <> 0)%Z
  /\ buffer_len ctx = 60
  /\ verushash_update_at false ctx 4096 (repeat 2%Z 70) = None.
Proof.
  cbv zeta.
  assert (N : 4096%Z <> 0%Z) by discriminate.
  split; [exact N | split; [reflexivity|]].
  apply (proj1 (@X22_update_returns_unless_misaligned false
                  (verushash_update false verushash_create_context (repeat 1%Z 60))
                  4096 (repeat 2%Z 70) N)).
  split; [vm_compute; lia | vm_compute; discriminate].
Defined.

(** On the level of values, the streaming digest depends on the
    concatenation of the chunks only. *)
Lemma streaming_concat_only (aes_ni : bool) (chunks chunks' : list (list Z)) :
  concat chunks = concat chunks' ->
  streaming aes_ni chunks = streaming aes_ni chunks'.
Proof.
  intros Heq. unfold streaming.
  destruct (@updates_spec aes_ni chunks _ create_context_wf) as (Hwf & _).
  destruct (@updates_spec aes_ni chunks' _ create_context_wf) as (Hwf' & _).
  destruct (updates_characterisation aes_ni chunks) as (Hst & Hp & _ & Ht).
  destruct (updates_characterisation aes_ni chunks') as (Hst' & Hp' & _ & Ht').
  apply finalize_digest_ext; try assumption; congruence.
Qed.

(** X2. Chunks are given with the addresses they are passed at.  When the
    [verushash_update] calls of two chunk sequences with the same
    concatenation all return, [verushash_finalize] writes the same digest
    for both. *)
Theorem X2_streaming_chunk_invariance
    (aes_ni : bool) (chunks chunks' : list (Z * list Z)) (d d' : list Z) :
  Forall non_null chunks -> Forall non_null chunks' ->
  concat (map snd chunks) = concat (map snd chunks') ->
  streaming_at aes_ni chunks = Some d ->
  streaming_at aes_ni chunks' = Some d' ->
  d = d'.
Proof.
  intros Hnn Hnn' Heq Hd Hd'.
  apply streaming_at_some in Hd; [|exact Hnn].
  apply streaming_at_some in Hd'; [|exact Hnn'].
  subst d d'. now apply streaming_concat_only.
Qed.

(** A message of 130 bytes at address 4096, passed whole and passed as its
    first 60 bytes followed by the other 70: the second call tops the
    buffer up with 4 bytes and loads its block from 4160. *)
Lemma X2_streaming_chunk_invariance_witness :
  let message := map Z.of_nat (seq 0 130) in
  let chunks := [(4096, message)]%Z in
  let chunks' := [(4096, firstn 60 message); (4156, skipn 60 message)]%Z in
  Forall non_null chunks /\ Forall non_null chunks'
  /\ concat (map snd chunks) = concat (map snd chunks')
  /\ streaming_at true chunks <> None
  /\ streaming_at true chunks = streaming_at true chunks'.
Proof.
  cbv zeta.
  set (message := map Z.of_nat (seq 0 130)).
  set (chunks := [(4096, message)]%Z).
  set (chunks' := [(4096, firstn 60 message); (4156, skipn 60 message)]%Z).
  assert (Hnn : Forall non_null chunks) by (repeat constructor; discriminate).
  assert (Hnn' : Forall non_null chunks') by (repeat constructor; discriminate).
  assert (Hcat : concat (map snd chunks) = concat (map snd chunks')) by reflexivity.
  assert (Hd : streaming_at true chunks = Some (streaming true (map snd chunks)))
    by (vm_compute; reflexivity).
  assert (Hd' : streaming_at true chunks' = Some (streaming true (map snd chunks')))
    by (vm_compute; reflexivity).
  split; [exact Hnn | split; [exact Hnn' | split; [exact Hcat|]]].
  split; [rewrite Hd; discriminate|].
  rewrite Hd, Hd'.
  exact (f_equal Some
           (@X2_streaming_chunk_invariance true chunks chunks' _ _ Hnn Hnn' Hcat Hd Hd')).
Defined.

(** X3. [verushash_update] with a chunk of length zero leaves the context
    as it is. *)
Theorem X3_update_empty_chunk (aes_ni : bool) (ctx : verushash_ctx) :
  ctx_wf ctx -> verushash_update aes_ni ctx [] = ctx.
Proof.
  intros (Hbuf & Hbl & Ht). destruct ctx as [buf bl total st].
  cbn [buffer buffer_len total_len state] in *.
  unfold verushash_update. cbn [buffer buffer_len total_len state length].
  rewrite Z.add_0_r, Z.mod_small by exact Ht.
  destruct (Nat.ltb_spec 0 bl) as [Hpos|Hz].
  - destruct (Nat.ltb_spec 0 (VERUS_BLOCKSIZE - bl)) as [_|Hle]; [|lia].
    cbn [firstn skipn length]. rewrite Nat.add_0_r.
    destruct (Nat.eqb_spec bl VERUS_BLOCKSIZE) as [Heq|_]; [lia|].
    cbn [absorb_loop Nat.ltb Nat.leb length].
    unfold memcpy. cbn [app length]. now rewrite Nat.add_0_r, firstn_skipn.
  - reflexivity.
Qed.

Lemma X3_update_empty_chunk_witness :
  ctx_wf verushash_create_context
  /\ verushash_update false verushash_create_context [] = verushash_create_context.
Proof.
  assert (Hctx : ctx_wf verushash_create_context).
  { repeat split; first [reflexivity | vm_compute; lia | vm_compute; congruence]. }
  split; [exact Hctx|].
  exact (@X3_update_empty_chunk false verushash_create_context Hctx).
Defined.

(** On the level of values, two successive updates have the effect of one
    update with the two chunks joined. *)
Lemma update_app_values (aes_ni : bool) (ctx : verushash_ctx) (a b : list Z) :
  ctx_wf ctx ->
  let c1 := verushash_update aes_ni (verushash_update aes_ni ctx a) b in
  let c2 := verushash_update aes_ni ctx (a ++ b) in
  state c1 = state c2
  /\ pending c1 = pending c2
  /\ total_len c1 = total_len c2
  /\ snd (verushash_finalize aes_ni c1) = snd (verushash_finalize aes_ni c2).
Proof.
  intros Hwf. cbv zeta.
  assert (Hdec : forall m, let t := trailing m in
            m = concat (full_blocks m) ++ t /\ Forall full_block (full_blocks m)
            /\ length t < VERUS_BLOCKSIZE).
  { intros m. destruct (message_decomposition m) as (Hd & Hf & Hl).
    repeat split; try assumption.
    rewrite Hl. apply Nat.mod_upper_bound. discriminate. }
  destruct (Hdec (pending ctx ++ a)) as (Hd1 & Hf1 & Hl1).
  destruct (@update_spec aes_ni ctx a _ _ Hwf Hf1 Hl1 Hd1) as (Hwf1 & Hst1 & Hp1 & Ht1).
  set (ctx1 := verushash_update aes_ni ctx a) in *.
  destruct (Hdec (pending ctx1 ++ b)) as (Hd2 & Hf2 & Hl2).
  destruct (@update_spec aes_ni ctx1 b _ _ Hwf1 Hf2 Hl2 Hd2) as (Hwf2 & Hst2 & Hp2 & Ht2).
  destruct (Hdec (pending ctx ++ a ++ b)) as (Hd3 & Hf3 & Hl3).
  destruct (@update_spec aes_ni ctx (a ++ b) _ _ Hwf Hf3 Hl3 Hd3) as (Hwf3 & Hst3 & Hp3 & Ht3).
  assert (Hjoin : concat (full_blocks (pending ctx ++ a) ++ full_blocks (pending ctx1 ++ b))
                    ++ trailing (pending ctx1 ++ b)
                  = concat (full_blocks (pending ctx ++ a ++ b))
                    ++ trailing (pending ctx ++ a ++ b)).
  { rewrite <- Hd3, concat_app, <- app_assoc, <- Hd2, Hp1.
    now rewrite app_assoc, <- Hd1, <- app_assoc. }
  destruct (@decomposition_unique _ _ _ _ (proj2 (Forall_app _ _ _) (conj Hf1 Hf2))
              Hf3 Hl2 Hl3 Hjoin) as [Hbs Htl].
  assert (Hstate : state (verushash_update aes_ni ctx1 b)
                   = state (verushash_update aes_ni ctx (a ++ b))).
  { now rewrite Hst2, Hst1, Hst3, <- Hbs, fold_left_app. }
  assert (Hpend : pending (verushash_update aes_ni ctx1 b)
                  = pending (verushash_update aes_ni ctx (a ++ b))) by congruence.
  assert (Htot : total_len (verushash_update aes_ni ctx1 b)
                 = total_len (verushash_update aes_ni ctx (a ++ b))).
  { rewrite Ht2, Ht1, Ht3, length_app, Nat2Z.inj_add, Zplus_mod_idemp_l.
    f_equal. lia. }
  repeat split; try assumption.
  now apply finalize_digest_ext.
Qed.

(** X4. Two successive [verushash_update] calls that return have the effect
    of one returning call with the two chunks joined, at whatever addresses
    the three chunks are passed: the state, the pending bytes and the byte
    count agree, and so does the digest of a following
    [verushash_finalize]. *)
Theorem X4_update_app
    (aes_ni : bool) (ctx : verushash_ctx) (p q r : Z) (a b : list Z)
    (c1 c2 c3 : verushash_ctx) :
  ctx_wf ctx -> p <> 0%Z -> q <> 0%Z -> r <> 0%Z ->
  verushash_update_at aes_ni ctx p a = Some c1 ->
  verushash_update_at aes_ni c1 q b = Some c2 ->
  verushash_update_at aes_ni ctx r (a ++ b) = Some c3 ->
  state c2 = state c3
  /\ pending c2 = pending c3
  /\ total_len c2 = total_len c3
  /\ snd (verushash_finalize aes_ni c2) = snd (verushash_finalize aes_ni c3).
Proof.
  intros Hwf Hp Hq Hr H1 H2 H3.
  apply verushash_update_at_some in H1; [|exact Hp]. subst c1.
  apply verushash_update_at_some in H2; [|exact Hq]. subst c2.
  apply verushash_update_at_some in H3; [|exact Hr]. subst c3.
  now apply update_app_values.
Qed.

(** A chunk of 60 bytes at 4096 followed by a chunk of 70 bytes at 8204
    (the block loaded from the second chunk is at 8208), against the same
    130 bytes in one chunk at 4096. *)
Lemma X4_update_app_witness :
  let a := repeat 1%Z 60 in
  let b := repeat 2%Z 70 in
  let c1 := verushash_update false verushash_create_context a in
  let c2 := verushash_update false c1 b in
  let c3 := verushash_update false verushash_create_context (a ++ b) in
  ctx_wf verushash_create_context
  /\ verushash_update_at false verushash_create_context 4096 a = Some c1
  /\ verushash_update_at false c1 8204 b = Some c2
  /\ verushash_update_at false verushash_create_context 4096 (a ++ b) = Some c3
  /\ snd (verushash_finalize false c2) = snd (verushash_finalize false c3).
Proof.
  cbv zeta.
  assert (Hctx : ctx_wf verushash_create_context).
  { repeat split; first [reflexivity | vm_compute; lia | vm_compute; congruence]. }
  assert (H1 : verushash_update_at false verushash_create_context 4096 (repeat 1%Z 60)
               = Some (verushash_update false verushash_create_context (repeat 1%Z 60)))
    by (vm_compute; reflexivity).
  assert (H2 : verushash_update_at false
                 (verushash_update false verushash_create_context (repeat 1%Z 60))
                 8204 (repeat 2%Z 70)
               = Some (verushash_update false
                         (verushash_update false verushash_create_context (repeat 1%Z 60))
                         (repeat 2%Z 70)))
    by (vm_compute; reflexivity).
  assert (H3 : verushash_update_at false verushash_create_context 4096
                 (repeat 1%Z 60 ++ repeat 2%Z 70)
               = Some (verushash_update false verushash_create_context
                         (repeat 1%Z 60 ++ repeat 2%Z 70)))
    by (vm_compute; reflexivity).
  split; [exact Hctx | split; [exact H1 | split; [exact H2 | split; [exact H3|]]]].
  assert (N1 : 4096%Z <> 0%Z) by discriminate.
  assert (N2 : 8204%Z <> 0%Z) by discriminate.
  exact (proj2 (proj2 (proj2
           (@X4_update_app false verushash_create_context 4096 8204 4096
              (repeat 1%Z 60) (repeat 2%Z 70) _ _ _ Hctx N1 N2 N1 H1 H2 H3)))).
Defined.

(** X5. The digest of [verushash_hash] and the digest of the streaming
    interface have 32 bytes, for every message and every sequence of chunks,
    on both permutation paths. *)
Theorem X5_digests_have_32_bytes (aes_ni : bool) (message : list Z) (chunks : list (list Z)) :
  length (verushash_hash aes_ni message) = 32
  /\ length (streaming aes_ni chunks) = 32.
Proof.
  split; [apply verushash_hash_length | apply streaming_length].
Qed.

(** X6. [haraka512] maps a 64-byte block to 32 bytes, whichever path it
    dispatches to. *)
Theorem X6_haraka512_output_length (aes_ni : bool) (input : list Z) :
  length input = VERUS_BLOCKSIZE -> length (haraka512 aes_ni input) = 32.
Proof.
  intros Hlen. destruct aes_ni; cbn [haraka512].
  - now apply haraka512_aes_ni_length.
  - apply haraka512_software_length.
Qed.

Lemma X6_haraka512_output_length_witness :
  length (repeat 7%Z 64) = VERUS_BLOCKSIZE
  /\ length (haraka512 true (repeat 7%Z 64)) = 32.
Proof.
  split; [reflexivity|].
  exact (@X6_haraka512_output_length true (repeat 7%Z 64) eq_refl).
Defined.

(** X7. When 56 to 63 bytes follow the last complete block, [verushash_hash]
    writes the length field over the marker and over the trailing bytes from
    offset 56 on: two messages of the same length that differ only in those
    bytes have the same digest. *)
Theorem X7_single_shot_ignores_overwritten_bytes
    (aes_ni : bool) (bs : list (list Z)) (tail tail' : list Z) :
  Forall full_block bs ->
  56 <= length tail < VERUS_BLOCKSIZE -> length tail' = length tail ->
  firstn 56 tail' = firstn 56 tail ->
  verushash_hash aes_ni (concat bs ++ tail') = verushash_hash aes_ni (concat bs ++ tail).
Proof.
  intros Hf Hlen Hlen' Hpre.
  rewrite !hash_trailing by (try assumption; lia).
  rewrite !hash_padded_block_overwritten by lia.
  now rewrite !length_app, Hlen', Hpre.
Qed.

Lemma X7_single_shot_ignores_overwritten_bytes_witness :
  Forall full_block []
  /\ 56 <= length (repeat 0%Z 56 ++ [1%Z]) < VERUS_BLOCKSIZE
  /\ firstn 56 (repeat 0%Z 56 ++ [2%Z]) = firstn 56 (repeat 0%Z 56 ++ [1%Z])
  /\ verushash_hash false (repeat 0%Z 56 ++ [2%Z])
     = verushash_hash false (repeat 0%Z 56 ++ [1%Z]).
Proof.
  assert (H1 : 56 <= length (repeat 0%Z 56 ++ [1%Z]) < VERUS_BLOCKSIZE)
    by (vm_compute; lia).
  split; [constructor | split; [exact H1 | split; [reflexivity|]]].
  exact (@X7_single_shot_ignores_overwritten_bytes false []
           (repeat 0%Z 56 ++ [1%Z]) (repeat 0%Z 56 ++ [2%Z])
           (Forall_nil _) H1 eq_refl eq_refl).
Defined.



(** X9. Lanes 2 and 3 of the running state never receive permutation
    output: after any number of absorbed blocks they are the initial lanes
    xored with bytes 32-47 and 48-63 of every block, whichever permutation
    path is taken. *)
Theorem X9_lanes_2_3_accumulate_xor (aes_ni : bool) (bs : list (list Z)) (st : list m128i) :
  state_wf st -> Forall full_block bs ->
  nth 2 (fold_left (absorb_block aes_ni) bs st) []
  = fold_left (fun lane b => _mm_xor_si128 lane (_mm_load_si128 b 32)) bs (nth 2 st [])
  /\ nth 3 (fold_left (absorb_block aes_ni) bs st) []
     = fold_left (fun lane b => _mm_xor_si128 lane (_mm_load_si128 b 48)) bs (nth 3 st []).
Proof.
  intros Hst Hf. revert st Hst.
  induction Hf as [|b bs Hb _ IH]; intros st Hst; [now split|].
  cbn [fold_left].
  destruct (IH (absorb_block aes_ni st b) (@absorb_block_wf aes_ni st b Hst Hb)) as [H2 H3].
  rewrite H2, H3, (@absorb_block_spec aes_ni st b Hst Hb). now split.
Qed.

Lemma X9_lanes_2_3_accumulate_xor_witness :
  state_wf initial_state
  /\ Forall full_block [repeat 1%Z 64; repeat 2%Z 64]
  /\ nth 2 (fold_left (absorb_block true) [repeat 1%Z 64; repeat 2%Z 64] initial_state) []
     = nth 2 (fold_left (absorb_block false) [repeat 1%Z 64; repeat 2%Z 64] initial_state) [].
Proof.
  assert (Hst : state_wf initial_state).
  { split; [reflexivity | repeat constructor]. }
  assert (Hf : Forall full_block [repeat 1%Z 64; repeat 2%Z 64]).
  { repeat constructor. }
  split; [exact Hst | split; [exact Hf|]].
  rewrite (proj1 (@X9_lanes_2_3_accumulate_xor true _ _ Hst Hf)).
  rewrite (proj1 (@X9_lanes_2_3_accumulate_xor false _ _ Hst Hf)).
  reflexivity.
Defined.

(** ** The software permutation on blocks with equal halves *)

Lemma sw_mix_word_period (x : Z) (i : nat) : sw_mix_word x (i + 8) = sw_mix_word x i.
Proof.
  unfold sw_mix_word. do 3 f_equal.
  rewrite <- (Nat.Div0.add_mod_idemp_r i 8 8). change (8 mod 8) with 0.
  now rewrite Nat.add_0_r.
Qed.

(** A state whose words [i] and [i + 8] are equal. *)
Lemma sw_round_doubled (h : list Z) (round : nat) :
  length h = 8 ->
  exists h', length h' = 8 /\ sw_round (h ++ h) round = h' ++ h'.
Proof.
  intros Hlen. rewrite sw_round_closed by (rewrite length_app; lia).
  destruct h as [|a0 [|a1 [|a2 [|a3 [|a4 [|a5 [|a6 [|a7 [|? ?]]]]]]]]];
    try discriminate Hlen. clear Hlen.
  assert (Hmix : sw_mix ([a0; a1; a2; a3; a4; a5; a6; a7] ++ [a0; a1; a2; a3; a4; a5; a6; a7])
                 = map (fun i => sw_mix_word (get [a0; a1; a2; a3; a4; a5; a6; a7] i) i) (seq 0 8)
                   ++ map (fun i => sw_mix_word (get [a0; a1; a2; a3; a4; a5; a6; a7] i) i) (seq 0 8)).
  { unfold sw_mix. cbn [seq map app get nth].
    repeat f_equal; exact (sw_mix_word_period _ _). }
  rewrite Hmix. cbn [seq map get nth].
  destruct (Nat.odd round);
    eexists (_ :: _ :: _ :: _ :: _ :: _ :: _ :: [_]); split; reflexivity.
Qed.

Lemma sw_rounds_doubled (rounds : list nat) : forall h,
  length h = 8 ->
  exists h', length h' = 8 /\ fold_left sw_round rounds (h ++ h) = h' ++ h'.
Proof.
  induction rounds as [|r rounds IH]; intros h Hlen.
  - exists h. now split.
  - cbn [fold_left]. destruct (@sw_round_doubled h r Hlen) as (h1 & Hlen1 & ->).
    now apply IH.
Qed.

Lemma load32_doubled (b : list Z) :
  length b = 32 ->
  map (load32 (b ++ b)) (seq 0 16)
  = map (load32 b) (seq 0 8) ++ map (load32 b) (seq 0 8).
Proof.
  intros Hlen. explode b Hlen. reflexivity.
Qed.

(** X10. The software permutation maps every 64-byte block whose second half
    repeats the first half to 32 zero bytes. *)
Theorem X10_software_permutation_zero_on_doubled_blocks (b : list Z) :
  length b = 32 -> haraka512_software (b ++ b) = repeat 0%Z 32.
Proof.
  intros Hlen. unfold haraka512_software.
  pose proof (@load32_doubled b Hlen) as Hw.
  rewrite Hw.
  destruct (@sw_rounds_doubled (seq 0 VERUS_ROUNDS) (map (load32 b) (seq 0 8)) eq_refl)
    as (h & Hh & ->).
  cbn [seq map] in Hw. injection Hw as H0 H1 H2 H3 H4 H5 H6 H7 H8 H9 H10 H11 H12 H13 H14 H15.
  explode h Hh.
  cbn [seq fold_left app upd get nth Nat.add flat_map].
  rewrite H0, H1, H2, H3, H4, H5, H6, H7, H8, H9, H10, H11, H12, H13, H14, H15.
  rewrite !Z.lxor_nilpotent. reflexivity.
Qed.

Lemma X10_software_permutation_zero_on_doubled_blocks_witness :
  length (map Z.of_nat (seq 1 32)) = 32
  /\ haraka512_software (map Z.of_nat (seq 1 32) ++ map Z.of_nat (seq 1 32))
     = repeat 0%Z 32.
Proof.
  split; [reflexivity|].
  exact (@X10_software_permutation_zero_on_doubled_blocks (map Z.of_nat (seq 1 32)) eq_refl).
Defined.

(* ================================================================== *)
(** * libfiropow: KISS99, bit manipulation and byte order *)

Unset Implicit Arguments.

(** ** 32-bit words *)

Lemma mod32_land (a : Z) : (a mod 2 ^ 32 = Z.land a (Z.ones 32))%Z.
Proof. symmetry. apply Z.land_ones. lia. Qed.

Lemma word32_mod (a : Z) : word32 (a mod 2 ^ 32).
Proof. apply Z.mod_pos_bound. lia. Qed.

Lemma word32_small (a : Z) : word32 a -> (a mod 2 ^ 32 = a)%Z.
Proof. intros H. now apply Z.mod_small. Qed.

Lemma lxor_mod32 (a b : Z) :
  (Z.lxor a b mod 2 ^ 32 = Z.lxor (a mod 2 ^ 32) (b mod 2 ^ 32))%Z.
Proof.
  rewrite !mod32_land. apply Z.bits_inj'. intros n _.
  rewrite Z.lxor_spec, !Z.land_spec, Z.lxor_spec.
  now destruct (Z.testbit a n), (Z.testbit b n), (Z.testbit (Z.ones 32) n).
Qed.

Lemma lor_mod32 (a b : Z) :
  (Z.lor a b mod 2 ^ 32 = Z.lor (a mod 2 ^ 32) (b mod 2 ^ 32))%Z.
Proof. rewrite !mod32_land. apply Z.land_lor_distr_l. Qed.

Lemma word32_lxor (a b : Z) : word32 a -> word32 b -> word32 (Z.lxor a b).
Proof.
  intros Ha Hb. rewrite <- (word32_small a Ha), <- (word32_small b Hb), <- lxor_mod32.
  apply word32_mod.
Qed.

Lemma word32_lor (a b : Z) : word32 a -> word32 b -> word32 (Z.lor a b).
Proof.
  intros Ha Hb. rewrite <- (word32_small a Ha), <- (word32_small b Hb), <- lor_mod32.
  apply word32_mod.
Qed.

Lemma word32_shiftr (a k : Z) : word32 a -> (0 <= k)%Z -> word32 (Z.shiftr a k).
Proof.
  intros [H0 H1] Hk. rewrite Z.shiftr_div_pow2 by exact Hk.
  assert (0 < 2 ^ k)%Z by (apply Z.pow_pos_nonneg; lia).
  split; [apply Z.div_pos; lia|].
  apply Z.le_lt_trans with a; [|exact H1]. apply Z.div_le_upper_bound; nia.
Qed.

Lemma shiftl_mod32 (a k : Z) :
  (0 <= k)%Z -> (Z.shiftl (a mod 2 ^ 32) k mod 2 ^ 32 = Z.shiftl a k mod 2 ^ 32)%Z.
Proof.
  intros Hk. rewrite !Z.shiftl_mul_pow2 by exact Hk.
  apply Z.mul_mod_idemp_l. lia.
Qed.

(** ** Shift-and-xor steps *)

Lemma word32_xor_shl (k x : Z) : word32 x -> word32 (xor_shl k x).
Proof. intros Hx. apply word32_lxor; [exact Hx | apply word32_mod]. Qed.

Lemma word32_xor_shr (k x : Z) : word32 x -> (0 <= k)%Z -> word32 (xor_shr k x).
Proof. intros Hx Hk. apply word32_lxor; [exact Hx | now apply word32_shiftr]. Qed.

Lemma lxor_cancel_middle (a b c : Z) : Z.lxor (Z.lxor a b) (Z.lxor b c) = Z.lxor a c.
Proof.
  rewrite Z.lxor_assoc, <- (Z.lxor_assoc b b c), Z.lxor_nilpotent, Z.lxor_0_l.
  reflexivity.
Qed.

Lemma xor_shl_twice (k x : Z) :
  (0 <= k)%Z -> xor_shl k (xor_shl k x) = xor_shl (2 * k) x.
Proof.
  intros Hk. unfold xor_shl.
  rewrite Z.shiftl_lxor, lxor_mod32, shiftl_mod32, Z.shiftl_shiftl by exact Hk.
  replace (k + k)%Z with (2 * k)%Z by lia.
  apply lxor_cancel_middle.
Qed.

Lemma xor_shl_out (k x : Z) : (32 <= k)%Z -> xor_shl k x = x.
Proof.
  intros Hk. unfold xor_shl. rewrite Z.shiftl_mul_pow2 by lia.
  replace k with (32 + (k - 32))%Z by lia.
  rewrite Z.pow_add_r, Z.mul_assoc, (Z.mul_comm (x * 2 ^ 32)), Z.mul_assoc by lia.
  rewrite Z.mod_mul by lia. apply Z.lxor_0_r.
Qed.

Lemma xor_shr_twice (k x : Z) :
  (0 <= k)%Z -> xor_shr k (xor_shr k x) = xor_shr (2 * k) x.
Proof.
  intros Hk. unfold xor_shr.
  rewrite Z.shiftr_lxor, Z.shiftr_shiftr by exact Hk.
  replace (k + k)%Z with (2 * k)%Z by lia.
  apply lxor_cancel_middle.
Qed.

Lemma xor_shr_out (k x : Z) : word32 x -> (32 <= k)%Z -> xor_shr k x = x.
Proof.
  intros [H0 H1] Hk. unfold xor_shr. rewrite Z.shiftr_div_pow2 by lia.
  rewrite Z.div_small; [apply Z.lxor_0_r|].
  split; [exact H0|]. apply Z.lt_le_trans with (2 ^ 32)%Z; [exact H1|].
  apply Z.pow_le_mono_r; lia.
Qed.

(** The shift-register step of [Kiss99.next] is undone by [jsr_unstep]. *)
Lemma jsr_step_inverse (x : Z) :
  word32 x -> jsr_unstep (xor_shl 5 (xor_shr 13 (xor_shl 17 x))) = x.
Proof.
  intros Hx. unfold jsr_unstep.
  rewrite (xor_shl_twice 5), (xor_shl_twice (2 * 5)), (xor_shl_twice (2 * (2 * 5))) by lia.
  rewrite (xor_shl_out (2 * (2 * (2 * 5)))) by lia.
  rewrite (xor_shr_twice 13), (xor_shr_twice (2 * 13)) by lia.
  rewrite (xor_shr_out (2 * (2 * 13))) by (try lia; now apply word32_xor_shl).
  rewrite (xor_shl_twice 17) by lia. apply xor_shl_out. lia.
Qed.
(** ** KISS99 *)

Lemma mwc_step (a x : Z) :
  word32 x -> (0 <= a <= 65535)%Z ->
  ((a * Z.land x 65535 + Z.shiftr x 16) mod 2 ^ 32
   = a * (x mod 65536) + x / 65536)%Z.
Proof.
  intros [H0 H1] Ha.
  change 65535%Z with (Z.ones 16). rewrite Z.land_ones by lia.
  rewrite Z.shiftr_div_pow2 by lia. change (2 ^ 16)%Z with 65536%Z.
  pose proof (Z.mod_pos_bound x 65536 eq_refl) as Hm.
  assert (Hd : (0 <= x / 65536 < 65536)%Z).
  { split; [apply Z.div_pos; lia | apply Z.div_lt_upper_bound; lia]. }
  apply Z.mod_small. change (Z.ones 16) with 65535%Z in Ha. nia.
Qed.

(** X11. The two multiply-with-carry updates of KISS99 never wrap around:
    the new [z] is [36969 * (z mod 2^16) + z / 2^16] and the new [w] is
    [18000 * (w mod 2^16) + w / 2^16] as integers.  A component that is zero
    stays zero and a non-zero component never becomes zero. *)
Theorem X11_kiss99_multiply_with_carry (s : Kiss99.kiss99) :
  word32 (Kiss99.z s) -> word32 (Kiss99.w s) ->
  let s' := fst (Kiss99.next s) in
  (Kiss99.z s' = 36969 * (Kiss99.z s mod 65536) + Kiss99.z s / 65536
   /\ Kiss99.w s' = 18000 * (Kiss99.w s mod 65536) + Kiss99.w s / 65536
   /\ (Kiss99.z s' = 0 <-> Kiss99.z s = 0)
   /\ (Kiss99.w s' = 0 <-> Kiss99.w s = 0))%Z.
Proof.
  intros Hz Hw. cbv zeta. unfold Kiss99.next. cbn [fst Kiss99.z Kiss99.w].
  rewrite (mwc_step 36969 _ Hz), (mwc_step 18000 _ Hw) by lia.
  pose proof (Z.mod_pos_bound (Kiss99.z s) 65536 eq_refl) as Hzm.
  pose proof (Z.mod_pos_bound (Kiss99.w s) 65536 eq_refl) as Hwm.
  pose proof (Z.div_mod (Kiss99.z s) 65536 ltac:(lia)) as Hzd.
  pose proof (Z.div_mod (Kiss99.w s) 65536 ltac:(lia)) as Hwd.
  assert (0 <= Kiss99.z s / 65536)%Z by (apply Z.div_pos; [apply Hz | lia]).
  assert (0 <= Kiss99.w s / 65536)%Z by (apply Z.div_pos; [apply Hw | lia]).
  repeat split; try reflexivity; lia.
Qed.

Lemma X11_kiss99_multiply_with_carry_witness :
  let s := {| Kiss99.z := 362436069; Kiss99.w := 521288629;
              Kiss99.jsr := 123456789; Kiss99.jcong := 380116160 |} in
  word32 (Kiss99.z s) /\ word32 (Kiss99.w s)
  /\ (Kiss99.z (fst (Kiss99.next s)) = 0 <-> Kiss99.z s = 0)%Z.
Proof.
  cbv zeta.
  match goal with |- ?A /\ ?B /\ _ =>
    assert (H1 : A) by (unfold word32; cbn; lia);
    assert (H2 : B) by (unfold word32; cbn; lia) end.
  split; [exact H1 | split; [exact H2|]].
  exact (proj1 (proj2 (proj2 (X11_kiss99_multiply_with_carry _ H1 H2)))).
Defined.

(** X12. The shift-register step of KISS99 ([jsr ^= jsr << 17;
    jsr ^= jsr >> 13; jsr ^= jsr << 5]) is a bijection of the 32-bit words:
    [jsr_unstep] recovers the previous value, two states with the same new
    [jsr] had the same [jsr], and the new value is zero exactly when the old
    one is. *)
Theorem X12_kiss99_shift_register_invertible (s s2 : Kiss99.kiss99) :
  word32 (Kiss99.jsr s) -> word32 (Kiss99.jsr s2) ->
  word32 (Kiss99.jsr (fst (Kiss99.next s)))
  /\ jsr_unstep (Kiss99.jsr (fst (Kiss99.next s))) = Kiss99.jsr s
  /\ (Kiss99.jsr (fst (Kiss99.next s)) = Kiss99.jsr (fst (Kiss99.next s2)) ->
      Kiss99.jsr s = Kiss99.jsr s2)
  /\ (Kiss99.jsr (fst (Kiss99.next s)) = 0%Z <-> Kiss99.jsr s = 0%Z).
Proof.
  intros Hj Hj2.
  assert (Hstep : forall t, Kiss99.jsr (fst (Kiss99.next t))
                            = xor_shl 5 (xor_shr 13 (xor_shl 17 (Kiss99.jsr t))))
    by reflexivity.
  rewrite !Hstep.
  assert (Hinv : forall t, word32 (Kiss99.jsr t) ->
            jsr_unstep (xor_shl 5 (xor_shr 13 (xor_shl 17 (Kiss99.jsr t)))) = Kiss99.jsr t)
    by (intros t Ht; now apply jsr_step_inverse).
  split; [|split; [|split]].
  - apply word32_xor_shl, word32_xor_shr; [now apply word32_xor_shl | lia].
  - now apply Hinv.
  - intros Heq. rewrite <- (Hinv s Hj), <- (Hinv s2 Hj2). now rewrite Heq.
  - split; intros H0.
    + rewrite <- (Hinv s Hj), H0. reflexivity.
    + rewrite H0. reflexivity.
Qed.

Lemma X12_kiss99_shift_register_invertible_witness :
  let s := {| Kiss99.z := 362436069; Kiss99.w := 521288629;
              Kiss99.jsr := 123456789; Kiss99.jcong := 380116160 |} in
  word32 (Kiss99.jsr s)
  /\ jsr_unstep (Kiss99.jsr (fst (Kiss99.next s))) = Kiss99.jsr s.
Proof.
  cbv zeta.
  match goal with |- ?A /\ _ => assert (H1 : A) by (unfold word32; cbn; lia) end.
  split; [exact H1|].
  exact (proj1 (proj2 (X12_kiss99_shift_register_invertible _ _ H1 H1))).
Defined.

(** X13. The congruential step of KISS99 ([jcong = 69069 * jcong + 1234567])
    is a bijection of the 32-bit words: the previous value is
    [(jcong' - 1234567) * 0xa5e2a705] modulo 2^32. *)
Theorem X13_kiss99_congruential_invertible (s : Kiss99.kiss99) :
  word32 (Kiss99.jcong s) ->
  (((Kiss99.jcong (fst (Kiss99.next s)) - 1234567) * jcong_multiplier_inverse) mod 2 ^ 32
   = Kiss99.jcong s)%Z.
Proof.
  intros Hj. unfold Kiss99.next. cbn [fst Kiss99.jcong].
  rewrite <- Zmult_mod_idemp_l, Zminus_mod_idemp_l, Zmult_mod_idemp_l.
  replace ((69069 * Kiss99.jcong s + 1234567 - 1234567) * jcong_multiplier_inverse)%Z
    with (Kiss99.jcong s + Kiss99.jcong s * 44756 * 2 ^ 32)%Z
    by (unfold jcong_multiplier_inverse; lia).
  rewrite Z.mod_add by lia. now apply Z.mod_small.
Qed.

Lemma X13_kiss99_congruential_invertible_witness :
  let s := {| Kiss99.z := 362436069; Kiss99.w := 521288629;
              Kiss99.jsr := 123456789; Kiss99.jcong := 380116160 |} in
  word32 (Kiss99.jcong s)
  /\ (((Kiss99.jcong (fst (Kiss99.next s)) - 1234567) * jcong_multiplier_inverse) mod 2 ^ 32
      = Kiss99.jcong s)%Z.
Proof.
  cbv zeta.
  match goal with |- ?A /\ _ => assert (H1 : A) by (unfold word32; cbn; lia) end.
  split; [exact H1|].
  exact (X13_kiss99_congruential_invertible _ H1).
Defined.
(** ** Bit manipulation *)

Lemma word32_testbit_high (x i : Z) : word32 x -> (32 <= i)%Z -> Z.testbit x i = false.
Proof.
  intros Hx Hi. rewrite <- (word32_small x Hx). apply Z.mod_pow2_bits_high. lia.
Qed.

Lemma word32_eq_bits (a b : Z) :
  word32 a -> word32 b ->
  (forall i, (0 <= i < 32)%Z -> Z.testbit a i = Z.testbit b i) -> a = b.
Proof.
  intros Ha Hb Hbits. apply Z.bits_inj'. intros i Hi.
  destruct (Z.lt_ge_cases i 32) as [Hlt|Hge].
  - apply Hbits. lia.
  - now rewrite !word32_testbit_high.
Qed.

Lemma land_31 (n : Z) : (0 <= n)%Z -> (Z.land n 31 = n mod 32)%Z.
Proof. intros Hn. change 31%Z with (Z.ones 5). now rewrite Z.land_ones by lia. Qed.

Lemma bm_rotl32_bits (x n i : Z) :
  word32 x -> (0 <= n)%Z -> Z.land n 31 <> 0%Z -> (0 <= i < 32)%Z ->
  Z.testbit (BitManipulation.rotl32 x n) i = Z.testbit x ((i - n) mod 32).
Proof.
  intros Hx Hn Hs Hi. rewrite land_31 in Hs by exact Hn.
  pose proof (Z.mod_pos_bound n 32 eq_refl) as Hm.
  change (BitManipulation.rotl32 x n) with (rotl32 x (Z.land n 31)).
  rewrite land_31 by exact Hn. rewrite rotl32_spec by (try exact Hx; lia).
  now rewrite Zminus_mod_idemp_r.
Qed.

Lemma bm_rotr32_bits (x n i : Z) :
  word32 x -> (0 <= n)%Z -> Z.land n 31 <> 0%Z -> (0 <= i < 32)%Z ->
  Z.testbit (BitManipulation.rotr32 x n) i = Z.testbit x ((i + n) mod 32).
Proof.
  intros Hx Hn Hs Hi. rewrite land_31 in Hs by exact Hn.
  pose proof (Z.mod_pos_bound n 32 eq_refl) as Hm.
  assert (Heq : BitManipulation.rotr32 x n = rotr32 x (Z.land n 31)).
  { unfold BitManipulation.rotr32, rotr32, rotl32.
    replace (32 - (32 - Z.land n 31))%Z with (Z.land n 31) by lia.
    apply Z.lor_comm. }
  rewrite Heq, land_31 by exact Hn. rewrite rotr32_spec by (try exact Hx; lia).
  now rewrite Zplus_mod_idemp_r.
Qed.

Lemma word32_bm_rotl32 (x n : Z) : word32 x -> (0 <= n)%Z -> word32 (BitManipulation.rotl32 x n).
Proof.
  intros Hx Hn. apply word32_lor; [apply word32_mod|].
  apply word32_shiftr; [exact Hx|]. rewrite land_31 by exact Hn.
  pose proof (Z.mod_pos_bound n 32 eq_refl). lia.
Qed.

Lemma word32_bm_rotr32 (x n : Z) : word32 x -> (0 <= n)%Z -> word32 (BitManipulation.rotr32 x n).
Proof.
  intros Hx Hn. apply word32_lor; [|apply word32_mod].
  apply word32_shiftr; [exact Hx|]. rewrite land_31 by exact Hn.
  pose proof (Z.mod_pos_bound n 32 eq_refl). lia.
Qed.

(** X14. For a fixed second argument, [fnv1a] is a bijection of the 32-bit
    words in its first argument: [u] is recovered as
    [((fnv1a u v * 0x359c449b) mod 2^32) xor v].  [fnv1a] is symmetric in its
    two arguments. *)
Theorem X14_fnv1a_invertible (u v : Z) :
  word32 u -> word32 v ->
  word32 (BitManipulation.fnv1a u v)
  /\ Z.lxor ((BitManipulation.fnv1a u v * fnv_prime_inverse) mod 2 ^ 32) v = u
  /\ BitManipulation.fnv1a u v = BitManipulation.fnv1a v u.
Proof.
  intros Hu Hv. unfold BitManipulation.fnv1a.
  split; [apply word32_mod|]. split.
  - rewrite Zmult_mod_idemp_l.
    replace (Z.lxor u v * BitManipulation.fnv_prime * fnv_prime_inverse)%Z
      with (Z.lxor u v + Z.lxor u v * 3513497 * 2 ^ 32)%Z
      by (unfold BitManipulation.fnv_prime, fnv_prime_inverse; lia).
    rewrite Z.mod_add by lia.
    rewrite (word32_small _ (word32_lxor u v Hu Hv)).
    now rewrite Z.lxor_assoc, Z.lxor_nilpotent, Z.lxor_0_r.
  - now rewrite Z.lxor_comm.
Qed.

Lemma X14_fnv1a_invertible_witness :
  word32 0x811c9dc5 /\ word32 0x12345678
  /\ Z.lxor ((BitManipulation.fnv1a 0x811c9dc5 0x12345678 * fnv_prime_inverse) mod 2 ^ 32)
            0x12345678 = 0x811c9dc5%Z.
Proof.
  assert (H1 : word32 0x811c9dc5) by (unfold word32; lia).
  assert (H2 : word32 0x12345678) by (unfold word32; lia).
  split; [exact H1 | split; [exact H2|]].
  exact (proj1 (proj2 (X14_fnv1a_invertible _ _ H1 H2))).
Defined.

(** X15. When [n & 31] is not zero, [rotl32(x, n)] is the rotation of the
    32-bit word [x] to the left by [n mod 32] bits and [rotr32(x, n)] its
    rotation to the right: bit [i] of the result is bit [i - n], respectively
    [i + n], modulo 32, of [x]. *)
Theorem X15_rotations_move_bits (x n i : Z) :
  word32 x -> (0 <= n)%Z -> Z.land n 31 <> 0%Z -> (0 <= i < 32)%Z ->
  Z.testbit (BitManipulation.rotl32 x n) i = Z.testbit x ((i - n) mod 32)
  /\ Z.testbit (BitManipulation.rotr32 x n) i = Z.testbit x ((i + n) mod 32)
  /\ word32 (BitManipulation.rotl32 x n)
  /\ word32 (BitManipulation.rotr32 x n).
Proof.
  intros Hx Hn Hs Hi. split; [|split; [|split]].
  - now apply bm_rotl32_bits.
  - now apply bm_rotr32_bits.
  - now apply word32_bm_rotl32.
  - now apply word32_bm_rotr32.
Qed.

Lemma X15_rotations_move_bits_witness :
  word32 0x80000001 /\ (0 <= 36)%Z /\ Z.land 36 31 <> 0%Z /\ (0 <= 4 < 32)%Z
  /\ Z.testbit (BitManipulation.rotl32 0x80000001 36) 4 = Z.testbit 0x80000001 ((4 - 36) mod 32).
Proof.
  assert (H1 : word32 0x80000001) by (unfold word32; lia).
  assert (H2 : (0 <= 36)%Z) by lia.
  assert (H3 : Z.land 36 31 <> 0%Z) by (vm_compute; discriminate).
  assert (H4 : (0 <= 4 < 32)%Z) by lia.
  repeat (split; [assumption|]).
  exact (proj1 (X15_rotations_move_bits _ _ _ H1 H2 H3 H4)).
Defined.

(** X16. When [n & 31] is not zero, [rotr32] undoes [rotl32] and [rotl32]
    undoes [rotr32] for the same count. *)
Theorem X16_rotations_round_trip (x n : Z) :
  word32 x -> (0 <= n)%Z -> Z.land n 31 <> 0%Z ->
  BitManipulation.rotr32 (BitManipulation.rotl32 x n) n = x
  /\ BitManipulation.rotl32 (BitManipulation.rotr32 x n) n = x.
Proof.
  intros Hx Hn Hs.
  assert (Hidx : forall i, (0 <= i < 32)%Z ->
            ((((i + n) mod 32) - n) mod 32 = i /\ (((i - n) mod 32) + n) mod 32 = i)%Z).
  { intros i Hi. rewrite Zminus_mod_idemp_l, Zplus_mod_idemp_l.
    replace (i + n - n)%Z with i by lia. replace (i - n + n)%Z with i by lia.
    split; apply Z.mod_small; lia. }
  split; apply word32_eq_bits; try exact Hx.
  - apply word32_bm_rotr32; [now apply word32_bm_rotl32 | exact Hn].
  - intros i Hi.
    rewrite bm_rotr32_bits by (try assumption; now apply word32_bm_rotl32).
    rewrite bm_rotl32_bits by (try assumption; apply Z.mod_pos_bound; lia).
    f_equal. now apply Hidx.
  - apply word32_bm_rotl32; [now apply word32_bm_rotr32 | exact Hn].
  - intros i Hi.
    rewrite bm_rotl32_bits by (try assumption; now apply word32_bm_rotr32).
    rewrite bm_rotr32_bits by (try assumption; apply Z.mod_pos_bound; lia).
    f_equal. now apply Hidx.
Qed.

Lemma X16_rotations_round_trip_witness :
  word32 0xdeadbeef /\ (0 <= 7)%Z /\ Z.land 7 31 <> 0%Z
  /\ BitManipulation.rotr32 (BitManipulation.rotl32 0xdeadbeef 7) 7 = 0xdeadbeef%Z.
Proof.
  assert (H1 : word32 0xdeadbeef) by (unfold word32; lia).
  assert (H2 : (0 <= 7)%Z) by lia.
  assert (H3 : Z.land 7 31 <> 0%Z) by (vm_compute; discriminate).
  repeat (split; [assumption|]).
  exact (proj1 (X16_rotations_round_trip _ _ H1 H2 H3)).
Defined.

(** X17. [mul_hi32(x, y)] is the quotient of the product by 2^32, with no
    loss in the 64-bit product or in the cast back to 32 bits; for a
    non-zero [y] the result is below [y]. *)
Theorem X17_mul_hi32_quotient (x y : Z) :
  word32 x -> word32 y ->
  (BitManipulation.mul_hi32 x y = x * y / 2 ^ 32
   /\ x * y = BitManipulation.mul_hi32 x y * 2 ^ 32 + (x * y) mod 2 ^ 32
   /\ (0 < y -> BitManipulation.mul_hi32 x y < y))%Z.
Proof.
  intros [Hx0 Hx1] [Hy0 Hy1]. unfold BitManipulation.mul_hi32.
  assert (Hp : (0 <= x * y < 2 ^ 64)%Z) by nia.
  rewrite (Z.mod_small _ _ Hp), Z.shiftr_div_pow2 by lia.
  assert (Hq : (0 <= x * y / 2 ^ 32 < 2 ^ 32)%Z).
  { split; [apply Z.div_pos; lia | apply Z.div_lt_upper_bound; lia]. }
  rewrite (Z.mod_small _ _ Hq).
  split; [reflexivity|]. split.
  - pose proof (Z.div_mod (x * y) (2 ^ 32) ltac:(lia)). lia.
  - intros Hy. apply Z.div_lt_upper_bound; [lia | nia].
Qed.

Lemma X17_mul_hi32_quotient_witness :
  word32 0xffffffff /\ word32 10
  /\ (0 < 10 -> BitManipulation.mul_hi32 0xffffffff 10 < 10)%Z.
Proof.
  assert (H1 : word32 0xffffffff) by (unfold word32; lia).
  assert (H2 : word32 10) by (unfold word32; lia).
  split; [exact H1 | split; [exact H2|]].
  exact (proj2 (proj2 (X17_mul_hi32_quotient _ _ H1 H2))).
Defined.
(** ** Leading zeros *)

Lemma top_bit_test (x : Z) :
  word32 x -> (Z.land x 0x80000000 =? 0)%Z = (x <? 2 ^ 31)%Z.
Proof.
  intros [H0 H1].
  assert (Hbit : Z.testbit x 31 = negb (x <? 2 ^ 31)%Z).
  { destruct (Z.ltb_spec x (2 ^ 31)) as [Hlt|Hge]; cbn [negb].
    - rewrite <- (Z.mod_small x (2 ^ 31)) by lia.
      apply Z.mod_pow2_bits_high. lia.
    - apply Z.testbit_true; [lia|].
      assert (Hq : (x / 2 ^ 31 = 1)%Z).
      { symmetry. apply Z.div_unique with (r := (x - 2 ^ 31)%Z); lia. }
      now rewrite Hq. }
  assert (Hland : Z.land x 0x80000000 = if Z.testbit x 31 then 0x80000000%Z else 0%Z).
  { apply Z.bits_inj'. intros i Hi. rewrite Z.land_spec.
    change 0x80000000%Z with (2 ^ 31)%Z. rewrite Z.pow2_bits_eqb by lia.
    destruct (Z.eqb_spec 31 i) as [<-|Hne].
    - rewrite andb_true_r. destruct (Z.testbit x 31); [|now rewrite Z.bits_0].
      symmetry. rewrite Z.pow2_bits_eqb by lia. apply Z.eqb_refl.
    - rewrite andb_false_r. destruct (Z.testbit x 31); [|now rewrite Z.bits_0].
      symmetry. rewrite Z.pow2_bits_eqb by lia. now apply Z.eqb_neq. }
  rewrite Hland, Hbit. now destruct (x <? 2 ^ 31)%Z.
Qed.

Lemma clz32_loop_spec (fuel : nat) : forall x count : Z,
  word32 x -> (0 < x)%Z -> (31 - Z.log2 x <= Z.of_nat fuel)%Z ->
  (0 <= count)%Z -> (count + Z.of_nat fuel < 2 ^ 32)%Z ->
  BitManipulation.clz32_loop fuel x count = (count + (31 - Z.log2 x))%Z.
Proof.
  induction fuel as [|fuel IH]; intros x count Hx Hpos Hfuel Hc0 Hc1.
  - assert (Z.log2 x < 32)%Z by (apply Z.log2_lt_pow2; [exact Hpos | apply Hx]).
    cbn [BitManipulation.clz32_loop]. lia.
  - cbn [BitManipulation.clz32_loop]. rewrite (top_bit_test x Hx).
    destruct (Z.ltb_spec x (2 ^ 31)) as [Hlt|Hge].
    + assert (Hdouble : (Z.shiftl x 1 mod 2 ^ 32 = 2 * x)%Z).
      { rewrite Z.shiftl_mul_pow2 by lia. change (2 ^ 1)%Z with 2%Z.
        rewrite Z.mul_comm. apply Z.mod_small. lia. }
      rewrite Hdouble, (Z.mod_small (count + 1)) by lia.
      rewrite IH; try (unfold word32; lia).
      * rewrite Z.log2_double by exact Hpos. lia.
      * rewrite Z.log2_double by exact Hpos. lia.
    + assert (Hlog : Z.log2 x = 31%Z).
      { apply Z.log2_unique; [lia|]. destruct Hx. split; [exact Hge | exact H0]. }
      lia.
Qed.

(** X18. The portable [clz32] returns 32 for 0 and, for a non-zero 32-bit
    word, the number of zero bits above its highest set bit:
    [31 - floor(log2 x)], so that [2^(31 - clz) <= x < 2^(32 - clz)]. *)
Theorem X18_clz32_counts_leading_zeros (x : Z) :
  word32 x ->
  (BitManipulation.clz32 x = (if x =? 0 then 32 else 31 - Z.log2 x)
   /\ (0 <= BitManipulation.clz32 x <= 32)
   /\ (0 < x -> 2 ^ (31 - BitManipulation.clz32 x) <= x
                < 2 ^ (32 - BitManipulation.clz32 x)))%Z.
Proof.
  intros Hx. unfold BitManipulation.clz32.
  destruct (Z.eqb_spec x 0) as [->|Hnz].
  - repeat split; lia.
  - assert (Hpos : (0 < x)%Z) by (destruct Hx; lia).
    assert (Hlog : (0 <= Z.log2 x < 32)%Z).
    { split; [apply Z.log2_nonneg | apply Z.log2_lt_pow2; [exact Hpos | apply Hx]]. }
    rewrite clz32_loop_spec by first [assumption | lia].
    rewrite Z.add_0_l. split; [reflexivity|]. split; [lia|].
    intros _. replace (31 - (31 - Z.log2 x))%Z with (Z.log2 x) by lia.
    replace (32 - (31 - Z.log2 x))%Z with (Z.succ (Z.log2 x)) by lia.
    now apply Z.log2_spec.
Qed.

Lemma X18_clz32_counts_leading_zeros_witness :
  word32 0x00010000 /\ BitManipulation.clz32 0x00010000 = 15%Z.
Proof.
  assert (H1 : word32 0x00010000) by (unfold word32; lia).
  split; [exact H1|].
  exact (proj1 (X18_clz32_counts_leading_zeros _ H1)).
Defined.

(** ** Byte order *)

Lemma le_value_le_bytes (n : nat) : forall x : Z,
  le_value (le_bytes n x) = (x mod 2 ^ (8 * Z.of_nat n))%Z.
Proof.
  induction n as [|n IH]; intros x.
  - cbn [le_bytes le_value]. change (2 ^ (8 * Z.of_nat 0))%Z with 1%Z.
    now rewrite Z.mod_1_r.
  - cbn [le_bytes le_value]. rewrite IH.
    replace (8 * Z.of_nat (S n))%Z with (8 + 8 * Z.of_nat n)%Z by lia.
    rewrite Z.pow_add_r by lia. change (2 ^ 8)%Z with 256%Z.
    assert (0 < 2 ^ (8 * Z.of_nat n))%Z by (apply Z.pow_pos_nonneg; lia).
    now rewrite Z.rem_mul_r by lia.
Qed.

Lemma le_bytes_le_value (bs : list Z) :
  Forall (fun b => 0 <= b < 256)%Z bs -> le_bytes (length bs) (le_value bs) = bs.
Proof.
  induction 1 as [|b bs Hb _ IH]; [reflexivity|].
  cbn [length le_bytes le_value]. f_equal.
  - replace (b + 256 * le_value bs)%Z with (b + le_value bs * 256)%Z by lia.
    rewrite Z.mod_add by lia. now apply Z.mod_small.
  - assert (Hq : ((b + 256 * le_value bs) / 256 = le_value bs)%Z).
    { replace (b + 256 * le_value bs)%Z with (b + le_value bs * 256)%Z by lia.
      rewrite Z.div_add by lia.
      rewrite (Z.div_small b 256) by exact Hb. lia. }
    rewrite Hq. exact IH.
Qed.

Lemma le_bytes_are_bytes (n : nat) : forall x : Z,
  Forall (fun b => 0 <= b < 256)%Z (le_bytes n x).
Proof.
  induction n as [|n IH]; intros x; cbn [le_bytes]; constructor.
  - apply Z.mod_pos_bound. lia.
  - apply IH.
Qed.

Lemma le_bytes_reversed (n : nat) (x : Z) :
  le_bytes n (le_value (rev (le_bytes n x))) = rev (le_bytes n x).
Proof.
  rewrite <- (le_bytes_length n x) at 1. rewrite <- length_rev.
  apply le_bytes_le_value. apply Forall_rev, le_bytes_are_bytes.
Qed.

(** X19. Whatever the byte order of the host, the bytes that [le::uint32(x)]
    occupies in memory are the little-endian encoding of [x], those of
    [be::uint32(x)] and [be::uint64(x)] the big-endian encoding, and an array
    converted by [le::uint32s] is stored as the little-endian encoding of its
    elements. *)
Theorem X19_byte_order_conversions (host : Endianness.byte_order) (x : Z) (arr : list Z) :
  Endianness.native_bytes host 4 (Endianness.le_uint32 host x) = le_bytes 4 x
  /\ Endianness.native_bytes host 4 (Endianness.be_uint32 host x) = rev (le_bytes 4 x)
  /\ Endianness.native_bytes host 8 (Endianness.be_uint64 host x) = rev (le_bytes 8 x)
  /\ flat_map (Endianness.native_bytes host 4) (Endianness.le_uint32s host arr)
     = flat_map (le_bytes 4) arr.
Proof.
  assert (Hle : forall y, Endianness.native_bytes host 4 (Endianness.le_uint32 host y)
                          = le_bytes 4 y).
  { intros y. destruct host; cbn [Endianness.native_bytes Endianness.le_uint32].
    - reflexivity.
    - unfold Endianness.bswap32. now rewrite le_bytes_reversed, rev_involutive. }
  split; [apply Hle|]. split; [|split].
  - destruct host; cbn [Endianness.native_bytes Endianness.be_uint32].
    + unfold Endianness.bswap32. apply le_bytes_reversed.
    + reflexivity.
  - destruct host; cbn [Endianness.native_bytes Endianness.be_uint64].
    + unfold Endianness.bswap64. apply le_bytes_reversed.
    + reflexivity.
  - unfold Endianness.le_uint32s.
    induction arr as [|a arr IH]; [reflexivity|].
    cbn [map flat_map]. now rewrite Hle, IH.
Qed.

(** X20. [be::uint32], [le::uint32] and [be::uint64] are involutions on the
    words of their width. *)
Theorem X20_byte_order_involutions (host : Endianness.byte_order) (x y : Z) :
  word32 x -> (0 <= y < 2 ^ 64)%Z ->
  Endianness.be_uint32 host (Endianness.be_uint32 host x) = x
  /\ Endianness.le_uint32 host (Endianness.le_uint32 host x) = x
  /\ Endianness.be_uint64 host (Endianness.be_uint64 host y) = y.
Proof.
  intros Hx Hy.
  assert (H32 : Endianness.bswap32 (Endianness.bswap32 x) = x).
  { unfold Endianness.bswap32. rewrite le_bytes_reversed, rev_involutive.
    rewrite le_value_le_bytes. now apply Z.mod_small. }
  assert (H64 : Endianness.bswap64 (Endianness.bswap64 y) = y).
  { unfold Endianness.bswap64. rewrite le_bytes_reversed, rev_involutive.
    rewrite le_value_le_bytes. now apply Z.mod_small. }
  destruct host; cbn [Endianness.be_uint32 Endianness.le_uint32 Endianness.be_uint64];
    repeat split; assumption || reflexivity.
Qed.

Lemma X20_byte_order_involutions_witness :
  word32 0x11223344 /\ (0 <= 0x1122334455667788 < 2 ^ 64)%Z
  /\ Endianness.be_uint32 Endianness.LittleEndian 0x11223344 = 0x44332211%Z
  /\ Endianness.be_uint32 Endianness.LittleEndian
       (Endianness.be_uint32 Endianness.LittleEndian 0x11223344) = 0x11223344%Z.
Proof.
  assert (H1 : word32 0x11223344) by (unfold word32; lia).
  assert (H2 : (0 <= 0x1122334455667788 < 2 ^ 64)%Z) by lia.
  split; [exact H1 | split; [exact H2 | split; [reflexivity|]]].
  exact (proj1 (X20_byte_order_involutions Endianness.LittleEndian _ _ H1 H2)).
Defined.
(** ** Population count *)

Lemma testbit_cat (k d r m : Z) :
  (0 <= k)%Z -> (0 <= d < 2 ^ k)%Z -> (0 <= m)%Z ->
  Z.testbit (d + 2 ^ k * r) m
  = if (m <? k)%Z then Z.testbit d m else Z.testbit r (m - k).
Proof.
  intros Hk Hd Hm. assert (Hp : (0 < 2 ^ k)%Z) by (apply Z.pow_pos_nonneg; lia).
  destruct (Z.ltb_spec m k) as [Hlt|Hge].
  - rewrite <- (Z.mod_pow2_bits_low (d + 2 ^ k * r) k m) by lia.
    replace (d + 2 ^ k * r)%Z with (d + r * 2 ^ k)%Z by lia.
    rewrite Z.mod_add by lia. now rewrite Z.mod_small.
  - replace m with ((m - k) + k)%Z at 1 by lia.
    rewrite <- Z.div_pow2_bits by lia.
    replace (d + 2 ^ k * r)%Z with (d + r * 2 ^ k)%Z by lia.
    rewrite Z.div_add by lia. now rewrite Z.div_small.
Qed.

Lemma small_testbit (a k m : Z) :
  (0 <= a < 2 ^ k)%Z -> (k <= m)%Z -> Z.testbit a m = false.
Proof.
  intros Ha Hm. destruct (Z.lt_ge_cases k 0) as [Hk|Hk].
  - rewrite Z.pow_neg_r in Ha by lia. lia.
  - rewrite <- (Z.mod_small a (2 ^ k)) by exact Ha.
    apply Z.mod_pow2_bits_high. lia.
Qed.

Lemma land_small (a m k : Z) :
  (0 <= k)%Z -> (0 <= m < 2 ^ k)%Z -> (0 <= Z.land a m < 2 ^ k)%Z.
Proof.
  intros Hk Hm.
  assert (Heq : (Z.land a m mod 2 ^ k = Z.land a m)%Z).
  { apply Z.bits_inj'. intros i Hi.
    destruct (Z.lt_ge_cases i k) as [Hlt|Hge].
    - now rewrite Z.mod_pow2_bits_low.
    - rewrite Z.mod_pow2_bits_high by lia.
      now rewrite Z.land_spec, (small_testbit m k i), andb_false_r. }
  rewrite <- Heq. apply Z.mod_pos_bound. apply Z.pow_pos_nonneg; lia.
Qed.

(** A shift to the right by [s] bits followed by a mask acts digit by
    digit when the mask clears the [s] upper bits of every base-16 digit. *)
Lemma land_shiftr_digit (s d r m mr : Z) :
  (0 <= s <= 4)%Z -> (0 <= d < 16)%Z -> (0 <= r)%Z ->
  (0 <= m < 2 ^ (4 - s))%Z -> (0 <= mr)%Z ->
  Z.land (Z.shiftr (d + 16 * r) s) (m + 16 * mr)
  = (Z.land (Z.shiftr d s) m + 16 * Z.land (Z.shiftr r s) mr)%Z.
Proof.
  intros Hs Hd Hr Hm Hmr.
  assert (Hm16 : (0 <= m < 2 ^ 4)%Z).
  { split; [lia|]. apply Z.lt_le_trans with (2 ^ (4 - s))%Z; [lia|].
    apply Z.pow_le_mono_r; lia. }
  pose proof (land_small (Z.shiftr d s) m 4 ltac:(lia) Hm16) as Hlow.
  apply Z.bits_inj'. intros i Hi.
  change 16%Z with (2 ^ 4)%Z.
  rewrite (testbit_cat 4 _ _ i) by lia.
  rewrite Z.land_spec, Z.shiftr_spec by lia.
  rewrite (testbit_cat 4 d r (i + s)), (testbit_cat 4 m mr i) by (change (2 ^ 4)%Z with 16%Z; lia).
  rewrite !Z.land_spec, !Z.shiftr_spec by lia.
  destruct (Z.ltb_spec i 4) as [Hi4|Hi4]; destruct (Z.ltb_spec (i + s) 4) as [His|His];
    try lia.
  - reflexivity.
  - rewrite (small_testbit m (4 - s) i), (small_testbit d 4 (i + s)) by
      (first [assumption | lia | (change (2 ^ 4)%Z with 16%Z; lia)]).
    now rewrite !andb_false_r.
  - rewrite ?Z.land_spec, ?Z.shiftr_spec by lia.
    replace (i + s - 4)%Z with (i - 4 + s)%Z by lia. reflexivity.
Qed.

Lemma land_digit (d r m mr : Z) :
  (0 <= d < 16)%Z -> (0 <= r)%Z -> (0 <= m < 16)%Z -> (0 <= mr)%Z ->
  Z.land (d + 16 * r) (m + 16 * mr) = (Z.land d m + 16 * Z.land r mr)%Z.
Proof.
  intros Hd Hr Hm Hmr.
  pose proof (land_shiftr_digit 0 d r m mr ltac:(lia) Hd Hr ltac:(simpl; lia) Hmr) as H.
  now rewrite !Z.shiftr_0_r in H.
Qed.

Lemma shiftr_digit (d r : Z) : (0 <= d < 16)%Z -> Z.shiftr (d + 16 * r) 4 = r.
Proof.
  intros Hd. rewrite Z.shiftr_div_pow2 by lia. change (2 ^ 4)%Z with 16%Z.
  replace (d + 16 * r)%Z with (d + r * 16)%Z by lia.
  rewrite Z.div_add by lia. rewrite Z.div_small by lia. lia.
Qed.

(** The bit count of a number is the sum of the bit counts of its parts. *)
Lemma bit_count_cat (k : nat) : forall (n : nat) (d r : Z),
  (0 <= d < 2 ^ Z.of_nat k)%Z ->
  bit_count (k + n) (d + 2 ^ Z.of_nat k * r) = (bit_count k d + bit_count n r)%Z.
Proof.
  induction k as [|k IH]; intros n d r Hd.
  - change (2 ^ Z.of_nat 0)%Z with 1%Z in *. assert (d = 0%Z) by lia. subst d.
    cbn [Nat.add bit_count]. rewrite !Z.add_0_l. f_equal. lia.
  - rewrite Nat2Z.inj_succ, Z.pow_succ_r in * by lia.
    cbn [Nat.add bit_count].
    assert (Hp : (0 < 2 ^ Z.of_nat k)%Z) by (apply Z.pow_pos_nonneg; lia).
    assert (Hodd : Z.odd (d + 2 * 2 ^ Z.of_nat k * r) = Z.odd d).
    { replace (d + 2 * 2 ^ Z.of_nat k * r)%Z with (d + 2 * (2 ^ Z.of_nat k * r))%Z by lia.
      apply Z.odd_add_mul_2. }
    assert (Hhalf : ((d + 2 * 2 ^ Z.of_nat k * r) / 2 = d / 2 + 2 ^ Z.of_nat k * r)%Z).
    { replace (d + 2 * 2 ^ Z.of_nat k * r)%Z with (d + (2 ^ Z.of_nat k * r) * 2)%Z by lia.
      now rewrite Z.div_add by lia. }
    rewrite Hodd, Hhalf, IH; [lia|].
    split; [apply Z.div_pos; lia | apply Z.div_lt_upper_bound; lia].
Qed.

(** The first two steps of [popcount32] on one base-16 digit: the digit
    becomes two 2-bit counts, then its number of set bits. *)
Lemma nibble_facts (n : Z) :
  (0 <= n < 16)%Z ->
  (0 <= Z.land (Z.shiftr n 1) 5)%Z
  /\ (0 <= nibble_pairs n < 16)%Z
  /\ (0 <= nibble_count n <= 4)%Z
  /\ nibble_count n = bit_count 4 n.
Proof.
  intros Hn.
  assert (Hin : In n (map Z.of_nat (seq 0 16))).
  { apply in_map_iff. exists (Z.to_nat n). split; [lia | apply in_seq; lia]. }
  assert (Hall : Forall (fun k => (0 <= Z.land (Z.shiftr k 1) 5)%Z
                                  /\ (0 <= nibble_pairs k < 16)%Z
                                  /\ (0 <= nibble_count k <= 4)%Z
                                  /\ nibble_count k = bit_count 4 k)
                        (map Z.of_nat (seq 0 16))).
  { cbn [seq map].
    repeat (constructor; [vm_compute; repeat split; congruence|]).
    constructor. }
  exact (proj1 (Forall_forall _ _) Hall n Hin).
Qed.

Lemma word32_digits16 (x : Z) :
  word32 x ->
  exists n0 n1 n2 n3 n4 n5 n6 n7 : Z,
    x = digits16 n0 n1 n2 n3 n4 n5 n6 n7
    /\ (0 <= n0 < 16 /\ 0 <= n1 < 16 /\ 0 <= n2 < 16 /\ 0 <= n3 < 16
        /\ 0 <= n4 < 16 /\ 0 <= n5 < 16 /\ 0 <= n6 < 16 /\ 0 <= n7 < 16)%Z.
Proof.
  intros [H0 H1].
  exists (x mod 16)%Z, (x / 16 mod 16)%Z, (x / 16 / 16 mod 16)%Z,
    (x / 16 / 16 / 16 mod 16)%Z, (x / 16 / 16 / 16 / 16 mod 16)%Z,
    (x / 16 / 16 / 16 / 16 / 16 mod 16)%Z, (x / 16 / 16 / 16 / 16 / 16 / 16 mod 16)%Z,
    (x / 16 / 16 / 16 / 16 / 16 / 16 / 16)%Z.
  unfold digits16. change (2 ^ 32)%Z with 4294967296%Z in H1.
  split; [|repeat split]; Z.to_euclidean_division_equations; lia.
Qed.
Lemma land_15 (a : Z) : (0 <= a < 16)%Z -> Z.land a 15 = a.
Proof.
  intros Ha. change 15%Z with (Z.ones 4). rewrite Z.land_ones by lia.
  now apply Z.mod_small.
Qed.

(** [popcount32] on a word given by its base-16 digits. *)
Lemma popcount32_digits16 (n0 n1 n2 n3 n4 n5 n6 n7 : Z) :
  (0 <= n0 < 16)%Z -> (0 <= n1 < 16)%Z -> (0 <= n2 < 16)%Z -> (0 <= n3 < 16)%Z ->
  (0 <= n4 < 16)%Z -> (0 <= n5 < 16)%Z -> (0 <= n6 < 16)%Z -> (0 <= n7 < 16)%Z ->
  BitManipulation.popcount32 (digits16 n0 n1 n2 n3 n4 n5 n6 n7)
  = (nibble_count n0 + nibble_count n1 + nibble_count n2 + nibble_count n3
     + nibble_count n4 + nibble_count n5 + nibble_count n6 + nibble_count n7)%Z.
Proof.
  intros H0 H1 H2 H3 H4 H5 H6 H7.
  destruct (nibble_facts n0 H0) as (A0 & C0 & E0 & _).
  destruct (nibble_facts n1 H1) as (A1 & C1 & E1 & _).
  destruct (nibble_facts n2 H2) as (A2 & C2 & E2 & _).
  destruct (nibble_facts n3 H3) as (A3 & C3 & E3 & _).
  destruct (nibble_facts n4 H4) as (A4 & C4 & E4 & _).
  destruct (nibble_facts n5 H5) as (A5 & C5 & E5 & _).
  destruct (nibble_facts n6 H6) as (A6 & C6 & E6 & _).
  destruct (nibble_facts n7 H7) as (A7 & C7 & E7 & _).
  unfold BitManipulation.popcount32, digits16.
  (* first step: pairs of bits *)
  replace 0x55555555%Z
    with (5 + 16 * (5 + 16 * (5 + 16 * (5 + 16 * (5 + 16 * (5 + 16 * (5 + 16 * (5 + 16 * 0))))))))%Z
    by reflexivity.
  rewrite !(land_shiftr_digit 1) by (change (2 ^ (4 - 1))%Z with 8%Z; lia).
  rewrite Z.shiftr_0_l, Z.land_0_l.
  match goal with |- context [((?a - ?b) mod 2 ^ 32)%Z] =>
    replace ((a - b) mod 2 ^ 32)%Z
      with (digits16 (nibble_pairs n0) (nibble_pairs n1) (nibble_pairs n2) (nibble_pairs n3)
              (nibble_pairs n4) (nibble_pairs n5) (nibble_pairs n6) (nibble_pairs n7))
      by (rewrite Z.mod_small; unfold digits16, nibble_pairs in *; lia)
  end.
  unfold digits16.
  (* second step: counts of the base-16 digits *)
  replace 0x33333333%Z
    with (3 + 16 * (3 + 16 * (3 + 16 * (3 + 16 * (3 + 16 * (3 + 16 * (3 + 16 * (3 + 16 * 0))))))))%Z
    by reflexivity.
  rewrite !(land_shiftr_digit 2) by (change (2 ^ (4 - 2))%Z with 4%Z; lia).
  rewrite !land_digit by lia.
  rewrite Z.shiftr_0_l, !Z.land_0_l.
  match goal with |- context [((?a + ?b) mod 2 ^ 32)%Z] =>
    replace ((a + b) mod 2 ^ 32)%Z
      with (digits16 (nibble_count n0) (nibble_count n1) (nibble_count n2) (nibble_count n3)
              (nibble_count n4) (nibble_count n5) (nibble_count n6) (nibble_count n7))
      by (rewrite Z.mod_small; unfold digits16, nibble_count in *; lia)
  end.
  unfold digits16.
  (* third step: counts of the bytes *)
  rewrite (shiftr_digit (nibble_count n0)) by lia.
  set (e0 := nibble_count n0) in *. set (e1 := nibble_count n1) in *.
  set (e2 := nibble_count n2) in *. set (e3 := nibble_count n3) in *.
  set (e4 := nibble_count n4) in *. set (e5 := nibble_count n5) in *.
  set (e6 := nibble_count n6) in *. set (e7 := nibble_count n7) in *.
  match goal with |- context [((?a + ?b) mod 2 ^ 32)%Z] =>
    replace ((a + b) mod 2 ^ 32)%Z
      with (digits16 (e0 + e1) (e1 + e2) (e2 + e3) (e3 + e4) (e4 + e5) (e5 + e6) (e6 + e7) e7)
      by (rewrite Z.mod_small; unfold digits16; lia)
  end.
  unfold digits16.
  replace 0x0F0F0F0F%Z
    with (15 + 16 * (0 + 16 * (15 + 16 * (0 + 16 * (15 + 16 * (0 + 16 * (15 + 16 * (0 + 16 * 0))))))))%Z
    by reflexivity.
  rewrite !land_digit by lia.
  rewrite !Z.land_0_r, !land_15 by lia.
  (* the multiplication adds the four bytes into the top byte *)
  rewrite Z.shiftr_div_pow2 by lia.
  set (b0 := (e0 + e1)%Z). set (b1 := (e2 + e3)%Z).
  set (b2 := (e4 + e5)%Z). set (b3 := (e6 + e7)%Z).
  assert (Hb : (0 <= b0 <= 8 /\ 0 <= b1 <= 8 /\ 0 <= b2 <= 8 /\ 0 <= b3 <= 8)%Z)
    by (unfold b0, b1, b2, b3; lia).
  match goal with |- ((?p mod 2 ^ 32) / 2 ^ 24 = _)%Z =>
    replace p
      with ((b0 + 256 * (b0 + b1) + 65536 * (b0 + b1 + b2))
            + (b0 + b1 + b2 + b3) * 2 ^ 24
            + ((b1 + b2 + b3) + 256 * (b2 + b3) + 65536 * b3) * 2 ^ 32)%Z
      by lia
  end.
  rewrite Z.mod_add by lia. rewrite Z.mod_small by lia.
  rewrite Z.div_add by lia. rewrite Z.div_small by lia.
  unfold b0, b1, b2, b3. lia.
Qed.
Lemma bit_count_digits16 (n0 n1 n2 n3 n4 n5 n6 n7 : Z) :
  (0 <= n0 < 16)%Z -> (0 <= n1 < 16)%Z -> (0 <= n2 < 16)%Z -> (0 <= n3 < 16)%Z ->
  (0 <= n4 < 16)%Z -> (0 <= n5 < 16)%Z -> (0 <= n6 < 16)%Z -> (0 <= n7 < 16)%Z ->
  bit_count 32 (digits16 n0 n1 n2 n3 n4 n5 n6 n7)
  = (bit_count 4 n0 + bit_count 4 n1 + bit_count 4 n2 + bit_count 4 n3
     + bit_count 4 n4 + bit_count 4 n5 + bit_count 4 n6 + bit_count 4 n7)%Z.
Proof.
  intros H0 H1 H2 H3 H4 H5 H6 H7. unfold digits16.
  pose proof (fun n d r H => bit_count_cat 4 n d r H) as Hcat.
  change (2 ^ Z.of_nat 4)%Z with 16%Z in Hcat.
  rewrite (Hcat 28%nat), (Hcat 24%nat), (Hcat 20%nat), (Hcat 16%nat),
    (Hcat 12%nat), (Hcat 8%nat), (Hcat 4%nat), (Hcat 0%nat) by assumption.
  cbn [bit_count]. lia.
Qed.

(** X21. The portable [popcount32] returns the number of set bits of its
    32-bit argument. *)
Theorem X21_popcount32_counts_set_bits (x : Z) :
  word32 x ->
  BitManipulation.popcount32 x = bit_count 32 x
  /\ (0 <= BitManipulation.popcount32 x <= 32)%Z.
Proof.
  intros Hx.
  destruct (word32_digits16 x Hx)
    as (n0 & n1 & n2 & n3 & n4 & n5 & n6 & n7 & -> & H0 & H1 & H2 & H3 & H4 & H5 & H6 & H7).
  rewrite popcount32_digits16, bit_count_digits16 by assumption.
  destruct (nibble_facts n0 H0) as (_ & _ & E0 & Q0); rewrite Q0 in *.
  destruct (nibble_facts n1 H1) as (_ & _ & E1 & Q1); rewrite Q1 in *.
  destruct (nibble_facts n2 H2) as (_ & _ & E2 & Q2); rewrite Q2 in *.
  destruct (nibble_facts n3 H3) as (_ & _ & E3 & Q3); rewrite Q3 in *.
  destruct (nibble_facts n4 H4) as (_ & _ & E4 & Q4); rewrite Q4 in *.
  destruct (nibble_facts n5 H5) as (_ & _ & E5 & Q5); rewrite Q5 in *.
  destruct (nibble_facts n6 H6) as (_ & _ & E6 & Q6); rewrite Q6 in *.
  destruct (nibble_facts n7 H7) as (_ & _ & E7 & Q7); rewrite Q7 in *.
  split; [reflexivity | lia].
Qed.

Lemma X21_popcount32_counts_set_bits_witness :
  word32 0xf0f01234 /\ BitManipulation.popcount32 0xf0f01234 = 13%Z.
Proof.
  assert (H1 : word32 0xf0f01234) by (unfold word32; lia).
  split; [exact H1|].
  exact (proj1 (X21_popcount32_counts_set_bits _ H1)).
Defined.
